(** * TopKeywordsJob (src/movies/job.py): the four stages of the job and the
      two map-reduce rounds that connect them.

    The stage functions [mapper_csv], [combiner_sum], [reducer] and
    [reducer_sort] are embedded as executable functions.  Python values are
    modelled as follows: [str] is the [string] of its UTF-8 bytes, [int] is
    [Z], a pandas row is an
    association list from column names to cells, an exception is a value of
    [exn] threaded through the [result] monad, and a generator is the list of
    the values it yields. *)

From Stdlib Require Import ZArith Ascii String.
From stdpp Require Import list strings sorting.

Local Open Scope string_scope.
Local Open Scope list_scope.

(** ** Exceptions *)

Inductive exn : Type :=
  | KeyError (column : string)       (* [data[column]] on an absent column *)
  | AttributeError (attr : string)   (* [x.attr] on an object without it *)
  | CollaboratorError.               (* raised inside [util.preprocessing] *)

Inductive result (A : Type) : Type :=
  | Ok (a : A)
  | Raise (e : exn).
Arguments Ok {A} a.
Arguments Raise {A} e.

#[global] Instance result_ret : MRet result := fun A a => Ok a.
#[global] Instance result_bind : MBind result := fun A B f m =>
  match m with
  | Ok a => f a
  | Raise e => Raise e
  end.

(** ** Python built-ins used by the job *)

Module Py.

(** A [str] is modelled by the string of the bytes of its UTF-8 encoding, so
    a character takes one to four bytes.  A byte below 128 is a character
    of its own and never part of a longer one. *)

(** [str.isspace] for the characters of one byte: U+0009 to U+000D and
    U+001C to U+0020. *)
Definition is_space (c : ascii) : bool :=
  let n := nat_of_ascii c in
  ((9 <=? n)%nat && (n <=? 13)%nat) || ((28 <=? n)%nat && (n <=? 32)%nat).

(** [str.isspace] for the characters of two bytes: U+0085 (C2 85) and
    U+00A0 (C2 A0). *)
Definition is_space2 (a b : ascii) : bool :=
  let '(x, y) := (nat_of_ascii a, nat_of_ascii b) in
  (x =? 194)%nat && ((y =? 133)%nat || (y =? 160)%nat).

(** [str.isspace] for the characters of three bytes: U+1680 (E1 9A 80),
    U+2000 to U+200A (E2 80 80 to E2 80 8A), U+2028, U+2029 and U+202F
    (E2 80 A8, A9, AF), U+205F (E2 81 9F) and U+3000 (E3 80 80).  No
    character of four bytes is whitespace. *)
Definition is_space3 (a b c : ascii) : bool :=
  let '(x, y, z) := (nat_of_ascii a, nat_of_ascii b, nat_of_ascii c) in
  ((x =? 225)%nat && (y =? 154)%nat && (z =? 128)%nat)
  || ((x =? 226)%nat && (y =? 128)%nat
      && (((128 <=? z)%nat && (z <=? 138)%nat)
          || (z =? 168)%nat || (z =? 169)%nat || (z =? 175)%nat))
  || ((x =? 226)%nat && (y =? 129)%nat && (z =? 159)%nat)
  || ((x =? 227)%nat && (y =? 128)%nat && (z =? 128)%nat).

(** The number of bytes of the whitespace character that [s] starts with;
    0 when [s] does not start with one. *)
Definition space_length (s : string) : nat :=
  match s with
  | EmptyString => 0
  | String a EmptyString => if is_space a then 1 else 0
  | String a (String b EmptyString) =>
      if is_space a then 1 else if is_space2 a b then 2 else 0
  | String a (String b (String c _)) =>
      if is_space a then 1 else if is_space2 a b then 2
      else if is_space3 a b c then 3 else 0
  end.

(** [s.split()]: the maximal runs of characters that are not whitespace.
    [skip] counts the bytes still to pass of the whitespace character that
    the scan is in. *)
Fixpoint split_ws_from (skip : nat) (cur : string) (s : string) : list string :=
  match s with
  | EmptyString => if decide (cur = "") then [] else [cur]
  | String c s' =>
      match skip with
      | S k => split_ws_from k cur s'
      | 0 =>
          match space_length (String c s') with
          | S k =>
              if decide (cur = "") then split_ws_from k "" s'
              else cur :: split_ws_from k "" s'
          | 0 => split_ws_from 0 (cur +:+ String c "") s'
          end
      end
  end.
Definition split_ws (s : string) : list string := split_ws_from 0 "" s.

(** [s.split(sep)] for a one-character separator: the pieces between the
    separators, empty pieces included, so never the empty list. *)
Fixpoint split_sep_from (sep : ascii) (cur : string) (s : string) : list string :=
  match s with
  | EmptyString => [cur]
  | String c s' =>
      if Ascii.eqb c sep
      then cur :: split_sep_from sep "" s'
      else split_sep_from sep (cur +:+ String c "") s'
  end.
Definition split_sep (sep : ascii) (s : string) : list string :=
  split_sep_from sep "" s.

(** [sum(values)]: starts from 0 and adds from the left. *)
Definition sum (values : list Z) : Z := foldl Z.add 0%Z values.

(** [sorted(l, key=key, reverse=reverse)]: a stable sort; with
    [reverse=True] elements of equal key still keep their input order. *)
Definition goes_after (reverse : bool) (kx ky : Z) : bool :=
  if reverse then (kx <? ky)%Z else (ky <? kx)%Z.

Fixpoint insert_sorted {A} (key : A → Z) (reverse : bool) (x : A) (l : list A) : list A :=
  match l with
  | [] => [x]
  | y :: l' =>
      if goes_after reverse (key x) (key y)
      then y :: insert_sorted key reverse x l'
      else x :: l
  end.

Definition sorted {A} (l : list A) (key : A → Z) (reverse : bool) : list A :=
  foldr (insert_sorted key reverse) [] l.

(** The order that [sorted] establishes between an element and a later
    one. *)
Definition ordered (reverse : bool) (a b : Z) : Prop :=
  if reverse then (b ≤ a)%Z else (a ≤ b)%Z.
Definition in_order {A} (key : A → Z) (reverse : bool) (x y : A) : Prop :=
  ordered reverse (key x) (key y).

(** [l[:stop]]: [None] keeps the list, a negative [stop] counts from the
    end. *)
Definition slice_to {A} (l : list A) (stop : option Z) : list A :=
  match stop with
  | None => l
  | Some n =>
      if (0 <=? n)%Z then take (Z.to_nat n) l
      else take (Z.to_nat (Z.of_nat (length l) + n)) l
  end.

End Py.

(** ** Rows of the data frame *)

(** A cell of the frame read by [pd.read_csv]: a string, or the float NaN
    that pandas puts in place of an empty field. *)
Inductive cell : Type :=
  | Str (s : string)
  | NaN.

(** A row ([data] in [mapper_csv]): the cells by column name. *)
Definition row : Type := list (string * cell).

(** [data[column]] *)
Fixpoint getitem (data : row) (column : string) : result cell :=
  match data with
  | [] => Raise (KeyError column)
  | (c, v) :: data' => if decide (c = column) then Ok v else getitem data' column
  end.

(** [x.split("|")]: only strings have the method. *)
Definition split_genres (x : cell) : result (list string) :=
  match x with
  | Str s => Ok (Py.split_sep "|"%char s)
  | NaN => Raise (AttributeError "split")
  end.

(** Tokens and category labels are strings; the round-1 key is the pair
    [(word, genre)] and an emission carries its count. *)
Abbreviation token := string (only parsing).
Abbreviation category := string (only parsing).
Abbreviation key1 := (token * category)%type (only parsing).
Abbreviation emission := (token * category * Z)%type (only parsing).

(** [mapM] of the [result] monad, written out. *)
Fixpoint traverse {A B} (f : A → result B) (l : list A) : result (list B) :=
  match l with
  | [] => Ok []
  | a :: l' => b ← f a; bs ← traverse f l'; Ok (b :: bs)
  end.

(** ** The stages *)

Section Job.

(** [pre.preprocess_text] lives in [util.preprocessing], outside the job
    file: it is a parameter, applied to whatever cell the title column
    holds. *)
Variable preprocess_text : cell → result string.

(** Lines 26-28: the words of a row's title. *)
Definition title_words (data : row) : result (list token) :=
  title ← getitem data "title";
  clean_title ← preprocess_text title;
  Ok (Py.split_ws clean_title).

(** Line 29: the genres of a row. *)
Definition row_genres (data : row) : result (list category) :=
  g ← getitem data "genres";
  split_genres g.

(** Lines 30-32: the two nested loops. *)
Definition emit (title_words : list token) (genres : list category) : list emission :=
  genre ← genres; word ← title_words; [((word, genre), 1%Z)].

(** The body of the loop over the rows (lines 26-32). *)
Definition mapper_row (data : row) : result (list emission) :=
  title_words ← title_words data;
  genres ← row_genres data;
  Ok (emit title_words genres).

(** [mapper_csv], given the frame that [pd.read_csv(input_path)] returned. *)
Definition mapper_csv (df : list row) : result (list emission) :=
  per_row ← traverse mapper_row df;
  Ok (concat per_row).

Definition combiner_sum (key : key1) (values : list Z) : list emission :=
  [(key, Py.sum values)].

Definition reducer (key : key1) (values : list Z) : list (category * (token * Z)) :=
  let '(word, genre) := key in
  [(genre, (word, Py.sum values))].

(** [self.options.maxWords]: an [int], or [None] when [-m] is not given. *)
Variable maxWords : option Z.

Definition reducer_sort (key : category) (values : list (token * Z))
  : list (category * (token * Z)) :=
  let top_size := maxWords in
  '(word, count) ← Py.slice_to (Py.sorted values snd true) top_size;
  [(key, (word, count))].

End Job.

(** ** The map-reduce runtime

    The job hands its stage functions to the runtime in [steps]: round 1 is
    [mapper_raw=mapper_csv, combiner=combiner_sum, reducer=reducer], round 2
    is [reducer=reducer_sort].  The runtime calls [mapper_raw] once per
    input file, and calls a combiner or reducer once per key with the values
    of that key.  It promises no order, neither among the keys nor among the
    values of a key, so a shuffle is a relation; [group_by_key] is one
    shuffle that can be executed. *)

Module MR.
Section Shuffle.
Context {K V : Type} `{EqDecision K}.

Definition values_of (k : K) (kvs : list (K * V)) : list V :=
  (filter (λ kv, kv.1 = k) kvs).*2.

Definition ungroup (gs : list (K * list V)) : list (K * V) :=
  g ← gs; pair g.1 <$> g.2.

(** [gs] is a grouping of the pairs [kvs] by key: every key once, with all
    of its values in some order. *)
Record shuffles (kvs : list (K * V)) (gs : list (K * list V)) : Prop := {
  shuffle_keys : NoDup gs.*1;
  shuffle_nonempty : Forall (λ g, g.2 ≠ []) gs;
  shuffle_perm : ungroup gs ≡ₚ kvs
}.

Definition group_as (ks : list K) (kvs : list (K * V)) : list (K * list V) :=
  (λ k, (k, values_of k kvs)) <$> ks.

Definition group_by_key (kvs : list (K * V)) : list (K * list V) :=
  group_as (remove_dups kvs.*1) kvs.
End Shuffle.

(** One call of the stage function per group. *)
Definition run_stage {K V O} (f : K → list V → list O) (gs : list (K * list V)) : list O :=
  g ← gs; f g.1 g.2.
End MR.

(** ** Runs of the job *)

Abbreviation ranked := (category * (token * Z))%type (only parsing).

(** What passes between the stages in one run. *)
Record run : Type := {
  mapped : list (list emission);     (* output of each [mapper_csv] task *)
  sent : list (list emission);       (* what each task sends to round 1 *)
  groups1 : list (key1 * list Z);    (* arrival at [reducer] *)
  round1 : list ranked;              (* output of round 1 *)
  groups2 : list (category * list (token * Z));  (* arrival at [reducer_sort] *)
  output : list ranked
}.

Section Runs.
Variable preprocess_text : cell → result string.
Variable maxWords : option Z.

(** A task's output after the combiner has been run on it. *)
Definition combined (task_out after : list emission) : Prop :=
  ∃ gs, MR.shuffles task_out gs ∧ after = MR.run_stage combiner_sum gs.

(** Round 1: Emitter, Local Aggregator (if used), Global Aggregator. *)
Record round1_run (use_combiner : bool) (files : list (list row)) (ρ : run) : Prop := {
  run_mapped : traverse (mapper_csv preprocess_text) files = Ok (mapped ρ);
  run_sent : if use_combiner then Forall2 combined (mapped ρ) (sent ρ)
             else sent ρ = mapped ρ;
  run_groups1 : MR.shuffles (concat (sent ρ)) (groups1 ρ);
  run_round1 : round1 ρ = MR.run_stage reducer (groups1 ρ)
}.

(** Round 1 followed by round 2, the Top-K Selector. *)
Record valid_run (use_combiner : bool) (files : list (list row)) (ρ : run) : Prop := {
  run_first : round1_run use_combiner files ρ;
  run_groups2 : MR.shuffles (round1 ρ) (groups2 ρ);
  run_output : output ρ = MR.run_stage (reducer_sort maxWords) (groups2 ρ)
}.

(** The possible outputs of the Global Aggregator and of the whole job. *)
Definition step1 (use_combiner : bool) (files : list (list row)) (r1 : list ranked) : Prop :=
  ∃ ρ, round1_run use_combiner files ρ ∧ round1 ρ = r1.

Definition job (use_combiner : bool) (files : list (list row)) (out : list ranked) : Prop :=
  ∃ ρ, valid_run use_combiner files ρ ∧ output ρ = out.

(** The run in which every shuffle is [group_by_key]. *)
Definition exec_run (use_combiner : bool) (files : list (list row)) : result run :=
  mapped ← traverse (mapper_csv preprocess_text) files;
  let sent :=
    if use_combiner
    then (λ m, MR.run_stage combiner_sum (MR.group_by_key m)) <$> mapped
    else mapped in
  let groups1 := MR.group_by_key (concat sent) in
  let round1 := MR.run_stage reducer groups1 in
  let groups2 := MR.group_by_key round1 in
  Ok {| mapped := mapped; sent := sent; groups1 := groups1; round1 := round1;
        groups2 := groups2;
        output := MR.run_stage (reducer_sort maxWords) groups2 |}.

Definition run_job (use_combiner : bool) (files : list (list row)) : result (list ranked) :=
  ρ ← exec_run use_combiner files; Ok (output ρ).

Definition run_step1 (use_combiner : bool) (files : list (list row)) : result (list ranked) :=
  ρ ← exec_run use_combiner files; Ok (round1 ρ).
End Runs.

(** A stand-in for the preprocessing, used to run examples: it keeps a
    string as it is and fails on NaN. *)
Definition keep_text (c : cell) : result string :=
  match c with
  | Str s => Ok s
  | NaN => Raise CollaboratorError
  end.

Definition movie (title genres : string) : row :=
  [("title", Str title); ("genres", Str genres)].

(** U+00A0, the no-break space, and U+3000, the ideographic space, as their
    bytes. *)
Definition nbsp : string := String "194" (String "160" "").
Definition ideographic_space : string := String "227" (String "128" (String "128" "")).

(** A row that carries a label twice. *)
Definition repeated_label : row := movie "dark" "Action|Action".

Definition two_movies : list row :=
  [movie "dark knight rises" "Action"; movie "dark water" "Action|Drama"].

(** The same two rows, one per input file. *)
Definition two_files : list (list row) :=
  [[movie "dark knight rises" "Action"]; [movie "dark water" "Action|Drama"]].

Definition two_files_round1 : list ranked :=
  [("Action", ("knight", 1%Z)); ("Action", ("rises", 1%Z));
   ("Action", ("dark", 2%Z)); ("Action", ("water", 1%Z));
   ("Drama", ("dark", 1%Z)); ("Drama", ("water", 1%Z))].

Definition empty_run : run :=
  {| mapped := []; sent := []; groups1 := []; round1 := []; groups2 := []; output := [] |}.

(** The executable run on [two_files], with the combiner and K = 2. *)
Definition first_run : run :=
  Eval vm_compute in
    match exec_run keep_text (Some 2%Z) true two_files with
    | Ok ρ => ρ
    | Raise _ => empty_run
    end.

(** Another run on [two_files], without the combiner, in which the values
    reach the selector in another order. *)
Definition second_run : run :=
  Eval vm_compute in
    let groups2 :=
      [("Drama", [("water", 1%Z); ("dark", 1%Z)]);
       ("Action", [("water", 1%Z); ("dark", 2%Z); ("rises", 1%Z); ("knight", 1%Z)])] in
    match exec_run keep_text (Some 2%Z) false two_files with
    | Ok ρ => {| mapped := mapped ρ; sent := sent ρ; groups1 := groups1 ρ;
                 round1 := round1 ρ; groups2 := groups2;
                 output := MR.run_stage (reducer_sort (Some 2%Z)) groups2 |}
    | Raise _ => empty_run
    end.

(** ** Vocabulary of the statements *)

(** Ranked by count, descending. *)
Definition count_desc (x y : token * Z) : Prop := (y.2 ≤ x.2)%Z.

(** The sum of a list of counts, told without the accumulator of [sum]. *)
Definition total_of (values : list Z) : Z := foldr Z.add 0%Z values.

(** How many times [x] occurs in [l]. *)
Definition occurrences `{EqDecision A} (x : A) (l : list A) : nat :=
  length (filter (λ y, y = x) l).

(** The emissions of one word under one genre, and those under one genre. *)
Definition of_key (k : key1) (es : list emission) : list emission :=
  filter (λ e, e.1 = k) es.
Definition of_genre (g : category) (es : list emission) : list emission :=
  filter (λ e, e.1.2 = g) es.

(** The words and the labels of a row (none where the Emitter raises). *)
Definition row_words (preprocess_text : cell → result string) (data : row) : list token :=
  match title_words preprocess_text data with
  | Ok ws => ws
  | Raise _ => []
  end.
Definition row_labels (data : row) : list category :=
  match row_genres data with
  | Ok gs => gs
  | Raise _ => []
  end.

(** The number of times the rows put the word [w] under the label [g]: for
    each row, once per occurrence of [w] in its title and per occurrence of
    [g] among its labels. *)
Definition global_count (preprocess_text : cell → result string)
    (rows : list row) (w : token) (g : category) : nat :=
  sum_list_with
    (λ r, occurrences w (row_words preprocess_text r) * occurrences g (row_labels r))
    rows.

(** The number of (row, word) occurrences that the rows put under [g]. *)
Definition category_count (preprocess_text : cell → result string)
    (rows : list row) (g : category) : nat :=
  sum_list_with
    (λ r, length (row_words preprocess_text r) * occurrences g (row_labels r))
    rows.

(** The same number counted over the rows labelled [g], for rows that carry
    each of their labels once. *)
Definition labelled_count (preprocess_text : cell → result string)
    (rows : list row) (g : category) : nat :=
  sum_list_with
    (λ r, length (row_words preprocess_text r))
    (filter (λ r, g ∈ row_labels r) rows).

(** What the Emitter yields for a row that it accepts, and for many rows. *)
Definition row_emissions (preprocess_text : cell → result string) (data : row)
    : list emission :=
  emit (row_words preprocess_text data) (row_labels data).
Definition all_emissions (preprocess_text : cell → result string) (rows : list row)
    : list emission :=
  rows ≫= row_emissions preprocess_text.

(** The sum of the counts that round 1 puts out under the category [g]. *)
Definition tally_total (g : category) (r1 : list ranked) : Z :=
  total_of (MR.values_of g r1).*2.

(** The sum of the counts of the pairs with key [k]. *)
Definition total_for {K} `{EqDecision K} (k : K) (kvs : list (K * Z)) : Z :=
  Py.sum (MR.values_of k kvs).

(** What round 1 puts out when its keys arrive in the order [ks] and the
    mappers have emitted [es]. *)
Definition round1_of (ks : list key1) (es : list emission) : list ranked :=
  (λ k, (k.2, (k.1, total_for k es))) <$> ks.

(** The ranked pairs that the selector keeps of the values of a category. *)
Definition ranking (maxWords : option Z) (values : list (token * Z)) : list (token * Z) :=
  Py.slice_to (Py.sorted values snd true) maxWords.

(** No two words of the category [g] have the same count. *)
Definition untied (preprocess_text : cell → result string)
    (rows : list row) (g : category) : Prop :=
  ∀ w1 w2, 0 < global_count preprocess_text rows w1 g →
           global_count preprocess_text rows w1 g = global_count preprocess_text rows w2 g →
           w1 = w2.

(** A row without category labels: the genres field is empty, either as
    the empty string or as the NaN that [read_csv] makes of an empty field. *)
Definition no_labels (data : row) : Prop :=
  getitem data "genres" = Ok (Str "") ∨ getitem data "genres" = Ok NaN.

(** A row whose text is empty or missing: an empty title, or no title
    column at all. *)
Definition no_text (data : row) : Prop :=
  getitem data "title" = Ok (Str "") ∨ getitem data "title" = Ok NaN ∨
  getitem data "title" = Raise (KeyError "title").

(** ** Vocabulary of the further statements *)

(** The bytes of a string. *)
Definition chars (s : string) : list ascii := list_ascii_of_string s.

(** A whitespace character starts in [cur] when [s] follows it. *)
Fixpoint spaces_in (cur s : string) : bool :=
  match cur with
  | EmptyString => false
  | String c cur' =>
      (0 <? Py.space_length (String c cur' +:+ s))%nat || spaces_in cur' s
  end.

(** The string has a whitespace character in it. *)
Definition has_space (w : string) : bool := spaces_in w "".

(** A word as [split()] makes them: not empty, no whitespace in it. *)
Definition clean_word (w : string) : Prop := w ≠ "" ∧ has_space w = false.

(** One whitespace character, as its bytes. *)
Definition space_char (w : string) : Prop :=
  w ≠ "" ∧ Py.space_length w = String.length w.

(** A text of whitespace characters only (the empty text included). *)
Definition blank (s : string) : Prop :=
  ∃ ws, Forall space_char ws ∧ s = foldr String.append "" ws.

(** [sep.join(pieces)] for a one-character separator. *)
Fixpoint join_sep (sep : ascii) (pieces : list string) : string :=
  match pieces with
  | [] => ""
  | p :: rest =>
      match rest with
      | [] => p
      | _ :: _ => p +:+ String sep (join_sep sep rest)
      end
  end.

(** * Properties *)

(** ** The built-ins *)

Module PyFacts.

Lemma foldl_add_shift (l : list Z) (a : Z) :
  foldl Z.add a l = (a + foldr Z.add 0 l)%Z.
Proof.
  revert a. induction l as [|x l IH]; intros a; simpl; [lia|].
  rewrite IH. lia.
Qed.

Lemma sum_foldr (l : list Z) : Py.sum l = foldr Z.add 0%Z l.
Proof. unfold Py.sum. rewrite foldl_add_shift. lia. Qed.

Lemma sum_nil : Py.sum [] = 0%Z.
Proof. reflexivity. Qed.

Lemma sum_cons (x : Z) (l : list Z) : Py.sum (x :: l) = (x + Py.sum l)%Z.
Proof. rewrite !sum_foldr. reflexivity. Qed.

Lemma sum_app (l1 l2 : list Z) : Py.sum (l1 ++ l2) = (Py.sum l1 + Py.sum l2)%Z.
Proof.
  induction l1 as [|x l1 IH]; simpl.
  - rewrite sum_nil. lia.
  - rewrite !sum_cons, IH. lia.
Qed.

#[global] Instance sum_perm : Proper ((≡ₚ) ==> (=)) Py.sum.
Proof.
  intros l1 l2 Hp. induction Hp as [|x l1 l2 _ IH|x y l|l1 l2 l3 _ IH1 _ IH2].
  - reflexivity.
  - rewrite !sum_cons. lia.
  - rewrite !sum_cons. lia.
  - congruence.
Qed.

Lemma sum_ones (l : list Z) :
  Forall (λ v, v = 1%Z) l → Py.sum l = Z.of_nat (length l).
Proof.
  induction 1 as [|x l -> _ IH]; [reflexivity|].
  rewrite sum_cons, IH. simpl length. lia.
Qed.

Lemma goes_after_true reverse a b :
  Py.goes_after reverse a b = true → Py.ordered reverse b a.
Proof. destruct reverse; simpl; lia. Qed.

Lemma goes_after_false reverse a b :
  Py.goes_after reverse a b = false → Py.ordered reverse a b.
Proof. destruct reverse; simpl; lia. Qed.

Lemma ordered_trans reverse a b c :
  Py.ordered reverse a b → Py.ordered reverse b c → Py.ordered reverse a c.
Proof. destruct reverse; simpl; lia. Qed.

Section Sorted.
Context {A : Type} (key : A → Z) (reverse : bool).

Lemma insert_sorted_perm (x : A) (l : list A) :
  Py.insert_sorted key reverse x l ≡ₚ x :: l.
Proof.
  induction l as [|y l IH]; simpl; [done|].
  destruct (Py.goes_after _ _ _); [|done].
  rewrite IH. apply perm_swap.
Qed.

Lemma sorted_perm (l : list A) : Py.sorted l key reverse ≡ₚ l.
Proof.
  induction l as [|x l IH]; simpl; [done|].
  unfold Py.sorted in *. simpl.
  rewrite insert_sorted_perm. by f_equiv.
Qed.

Lemma sorted_length (l : list A) : length (Py.sorted l key reverse) = length l.
Proof. by rewrite sorted_perm. Qed.

Lemma insert_sorted_sorted (x : A) (l : list A) :
  StronglySorted (Py.in_order key reverse) l →
  StronglySorted (Py.in_order key reverse) (Py.insert_sorted key reverse x l).
Proof.
  induction 1 as [|y l Hs IH Hy]; simpl.
  - repeat constructor.
  - destruct (Py.goes_after _ _ _) eqn:Hg.
    + constructor; [done|].
      rewrite insert_sorted_perm. constructor; [|done].
      by apply goes_after_true.
    + apply goes_after_false in Hg.
      constructor; [by constructor|].
      constructor; [done|].
      eapply Forall_impl; [exact Hy|].
      intros z Hz. unfold Py.in_order in *. by eapply ordered_trans.
Qed.

Lemma sorted_sorted (l : list A) :
  StronglySorted (Py.in_order key reverse) (Py.sorted l key reverse).
Proof.
  induction l as [|x l IH]; [constructor|].
  by apply insert_sorted_sorted.
Qed.

(** Stability: elements keep their input order unless their keys tell
    them apart. *)
Lemma insert_sorted_filter (P : A → Prop) `{∀ x, Decision (P x)} (x : A) (l : list A) :
  (∀ y, P x → P y → y ∈ l → key y = key x) →
  filter P (Py.insert_sorted key reverse x l) = filter P (x :: l).
Proof.
  induction l as [|y l IH]; intros Hk; simpl; [done|].
  destruct (Py.goes_after _ _ _) eqn:Hg; [|done].
  rewrite (filter_cons _ y), IH, !filter_cons
    by (intros z ? ? ?; apply Hk; [done|done|by right]).
  destruct (decide (P x)) as [Hx|]; [|done].
  destruct (decide (P y)) as [Hy|]; [|done].
  rewrite (Hk y Hx Hy) in Hg by left.
  destruct reverse; simpl in Hg; lia.
Qed.

Lemma sorted_stable (c : Z) (l : list A) :
  filter (λ x, key x = c) (Py.sorted l key reverse) = filter (λ x, key x = c) l.
Proof.
  induction l as [|x l IH]; [done|].
  unfold Py.sorted in *. simpl.
  rewrite insert_sorted_filter, !filter_cons, IH; [done|].
  intros y ? ? _. congruence.
Qed.
End Sorted.

Lemma slice_to_none {A} (l : list A) : Py.slice_to l None = l.
Proof. reflexivity. Qed.

Lemma slice_to_nonneg {A} (l : list A) (n : Z) :
  (0 ≤ n)%Z → Py.slice_to l (Some n) = take (Z.to_nat n) l.
Proof. intros Hn. unfold Py.slice_to. by rewrite (proj2 (Z.leb_le 0 n)). Qed.

Lemma slice_to_neg {A} (l : list A) (n : Z) :
  (n < 0)%Z → Py.slice_to l (Some n) = take (length l - Z.to_nat (- n)) l.
Proof.
  intros Hn. unfold Py.slice_to.
  rewrite (proj2 (Z.leb_gt 0 n)) by done. f_equal. lia.
Qed.

End PyFacts.

(** ** The Top-K Selector *)

Section TopK.

Lemma bind_unit_fmap {A B} (f : A → B) (g : A → list B) (l : list A) :
  (∀ x, g x = [f x]) → l ≫= g = f <$> l.
Proof.
  intros Hg. induction l as [|x l IH]; [done|].
  by rewrite bind_cons, Hg, IH.
Qed.

Lemma reducer_sort_unfold (maxWords : option Z) (key : category) (values : list (token * Z)) :
  reducer_sort maxWords key values
  = pair key <$> Py.slice_to (Py.sorted values snd true) maxWords.
Proof. unfold reducer_sort. apply bind_unit_fmap. by intros [w c]. Qed.

Lemma sorted_count_desc (values : list (token * Z)) :
  StronglySorted count_desc (Py.sorted values snd true).
Proof. apply (PyFacts.sorted_sorted snd true). Qed.

End TopK.

(** C1: with a configured K >= 0, the selector emits, under the category's
    key, a list ranked by count descending of min(K, n) of the n pairs it
    received; what it leaves out has counts no greater than what it emits;
    and with n <= K nothing is left out. *)
Theorem reducer_sort_top_k (k : Z) (key : category) (values : list (token * Z)) :
  (0 ≤ k)%Z →
  ∃ top rest,
    reducer_sort (Some k) key values = pair key <$> top ∧
    StronglySorted count_desc top ∧
    Z.of_nat (length top) = Z.min k (Z.of_nat (length values)) ∧
    top ++ rest ≡ₚ values ∧
    (∀ x y, x ∈ top → y ∈ rest → (y.2 ≤ x.2)%Z) ∧
    (Z.of_nat (length values) ≤ k → rest = [] ∧ top ≡ₚ values)%Z.
Proof.
  intros Hk.
  set (ranking := Py.sorted values snd true).
  assert (Hs : StronglySorted count_desc (take (Z.to_nat k) ranking
                                          ++ drop (Z.to_nat k) ranking)).
  { rewrite take_drop. apply sorted_count_desc. }
  assert (Hlen : length ranking = length values) by apply PyFacts.sorted_length.
  exists (take (Z.to_nat k) ranking), (drop (Z.to_nat k) ranking).
  split; [|split; [|split; [|split; [|split]]]].
  - rewrite reducer_sort_unfold. by rewrite PyFacts.slice_to_nonneg.
  - by eapply StronglySorted_app_1_l.
  - rewrite length_take, Hlen. lia.
  - rewrite take_drop. apply PyFacts.sorted_perm.
  - intros x y Hx Hy. by apply (StronglySorted_app_1_elem_of _ _ _ x y Hs).
  - intros Hn. assert (Hd : drop (Z.to_nat k) ranking = []).
    { apply drop_ge. lia. }
    split; [done|].
    rewrite take_ge by lia. apply PyFacts.sorted_perm.
Qed.

Lemma reducer_sort_top_k_witness :
  (0 ≤ 2)%Z ∧
  ∃ top rest,
    reducer_sort (Some 2%Z) "Action"
      [("knight", 1%Z); ("dark", 2%Z); ("rises", 1%Z)] = pair "Action" <$> top ∧
    StronglySorted count_desc top ∧
    Z.of_nat (length top) = Z.min 2 (Z.of_nat 3) ∧
    top ++ rest ≡ₚ [("knight", 1%Z); ("dark", 2%Z); ("rises", 1%Z)] ∧
    (∀ x y, x ∈ top → y ∈ rest → (y.2 ≤ x.2)%Z) ∧
    (Z.of_nat 3 ≤ 2 →
     rest = [] ∧ top ≡ₚ [("knight", 1%Z); ("dark", 2%Z); ("rises", 1%Z)])%Z.
Proof.
  split; [lia|].
  apply (reducer_sort_top_k 2 "Action" [("knight", 1%Z); ("dark", 2%Z); ("rises", 1%Z)]).
  lia.
Defined.

(** C4: for a key (word, genre) the round-1 reducer emits exactly one pair,
    keyed by the genre alone, whose value is the word with the sum of the
    counts received; the sum does not depend on the order of arrival. *)
Theorem reducer_rekeys_with_total (w : token) (g : category) (values : list Z) :
  reducer (w, g) values = [(g, (w, total_of values))] ∧
  ∀ values', values' ≡ₚ values → reducer (w, g) values' = reducer (w, g) values.
Proof.
  split.
  - unfold reducer, total_of. by rewrite PyFacts.sum_foldr.
  - intros values' Hp. unfold reducer. by rewrite Hp.
Qed.

(** C6, where the code departs from it: with K = -1 and three pairs the
    selector emits two pairs, where for a K of zero or less nothing is to
    come out.  The slice [[:top_size]] is taken without a look at the sign
    of [top_size], and a negative stop counts from the end. *)
Lemma reducer_sort_negative_k_emits :
  reducer_sort (Some (-1)%Z) "Action" [("dark", 2%Z); ("knight", 1%Z); ("rises", 1%Z)]
  = [("Action", ("dark", 2%Z)); ("Action", ("knight", 1%Z))] ∧
  ¬ (∀ (k : Z) (key : category) (values : list (token * Z)),
       (k ≤ 0)%Z → reducer_sort (Some k) key values = []).
Proof.
  split; [reflexivity|].
  intros H.
  specialize (H (-1)%Z "Action" [("dark", 2%Z); ("knight", 1%Z); ("rises", 1%Z)]).
  discriminate H. lia.
Qed.

(** What the slice of the selector does for a K of zero or less: nothing
    comes out for K = 0; for K < 0 the last |K| pairs of the ranking are
    cut off. *)
Lemma reducer_sort_nonpositive_k (k : Z) (key : category) (values : list (token * Z)) :
  (k ≤ 0)%Z →
  (k = 0%Z → reducer_sort (Some k) key values = []) ∧
  (k < 0 →
   reducer_sort (Some k) key values
   = pair key <$> take (length values - Z.to_nat (- k)) (Py.sorted values snd true) ∧
   Z.of_nat (length (reducer_sort (Some k) key values))
   = Z.max 0 (Z.of_nat (length values) + k))%Z ∧
  (reducer_sort (Some k) key values = [] ↔ (k = 0 ∨ Z.of_nat (length values) ≤ - k)%Z).
Proof.
  intros Hk.
  assert (Hlen : length (Py.sorted values snd true) = length values)
    by apply PyFacts.sorted_length.
  assert (Hneg : (k < 0)%Z → reducer_sort (Some k) key values
    = pair key <$> take (length values - Z.to_nat (- k)) (Py.sorted values snd true)).
  { intros Hlt. by rewrite reducer_sort_unfold, PyFacts.slice_to_neg, Hlen. }
  split; [|split].
  - intros ->. by rewrite reducer_sort_unfold.
  - intros Hlt. split; [by apply Hneg|].
    rewrite Hneg, length_fmap, length_take, Hlen by done. lia.
  - rewrite <- length_zero_iff_nil.
    destruct (decide (k = 0%Z)) as [->|Hnz].
    + rewrite reducer_sort_unfold. simpl. tauto.
    + rewrite Hneg, length_fmap, length_take, Hlen by lia. lia.
Qed.

(** C10: without the maxWords option the selector emits every pair it
    received, ranked by count descending, none cut off. *)
Theorem reducer_sort_no_limit (key : category) (values : list (token * Z)) :
  ∃ ranking,
    reducer_sort None key values = pair key <$> ranking ∧
    ranking ≡ₚ values ∧
    length ranking = length values ∧
    StronglySorted count_desc ranking.
Proof.
  exists (Py.sorted values snd true).
  split; [|split; [|split]].
  - by rewrite reducer_sort_unfold.
  - apply PyFacts.sorted_perm.
  - apply PyFacts.sorted_length.
  - apply sorted_count_desc.
Qed.

(** ** The Emitter *)

Section Emitter.
Variable preprocess_text : cell → result string.

Lemma emit_nil_genres (ws : list token) : emit ws [] = [].
Proof. reflexivity. Qed.

Lemma emit_cons (ws : list token) (g : category) (gs : list category) :
  emit ws (g :: gs) = ((λ w, ((w, g), 1%Z)) <$> ws) ++ emit ws gs.
Proof.
  unfold emit. rewrite bind_cons. f_equal.
Qed.

Lemma emit_nil_words (gs : list category) : emit [] gs = [].
Proof.
  induction gs as [|g gs IH]; [done|]. by rewrite emit_cons, IH.
Qed.

Lemma emit_length (ws : list token) (gs : list category) :
  length (emit ws gs) = length ws * length gs.
Proof.
  induction gs as [|g gs IH].
  - simpl. lia.
  - rewrite emit_cons, length_app, length_fmap, IH. simpl. lia.
Qed.

Lemma emit_ones (ws : list token) (gs : list category) :
  Forall (λ e, e.2 = 1%Z) (emit ws gs).
Proof.
  induction gs as [|g gs IH]; [constructor|].
  rewrite emit_cons. apply Forall_app. split; [|done].
  by apply Forall_fmap, Forall_true.
Qed.

Lemma emit_lookup (ws : list token) (gs : list category) (i j : nat) (g : category) (w : token) :
  gs !! i = Some g → ws !! j = Some w →
  emit ws gs !! (i * length ws + j) = Some ((w, g), 1%Z).
Proof.
  revert i. induction gs as [|g' gs IH]; intros i Hg Hw; [done|].
  rewrite emit_cons.
  pose proof (lookup_lt_Some _ _ _ Hw) as Hj.
  destruct i as [|i]; simpl in Hg.
  - injection Hg as ->.
    rewrite lookup_app_l by (rewrite length_fmap; lia).
    simpl. by rewrite list_lookup_fmap, Hw.
  - rewrite lookup_app_r by (rewrite length_fmap; lia).
    rewrite length_fmap.
    replace (S i * length ws + j - length ws) with (i * length ws + j) by lia.
    by apply IH.
Qed.

Lemma of_genre_block (ws : list token) (g g' : category) :
  of_genre g ((λ w, ((w, g'), 1%Z)) <$> ws)
  = if decide (g' = g) then (λ w, ((w, g'), 1%Z)) <$> ws else [].
Proof.
  unfold of_genre. induction ws as [|w ws IH]; [by case_decide|].
  rewrite fmap_cons, filter_cons, IH. simpl. by case_decide.
Qed.

Lemma of_genre_app (g : category) (es1 es2 : list emission) :
  of_genre g (es1 ++ es2) = of_genre g es1 ++ of_genre g es2.
Proof. apply filter_app. Qed.

Lemma of_key_app (k : key1) (es1 es2 : list emission) :
  of_key k (es1 ++ es2) = of_key k es1 ++ of_key k es2.
Proof. apply filter_app. Qed.

Lemma of_genre_emit (ws : list token) (gs : list category) (g : category) :
  of_genre g (emit ws gs) = emit ws (filter (λ g', g' = g) gs).
Proof.
  induction gs as [|g' gs IH]; [done|].
  rewrite emit_cons, of_genre_app, IH, of_genre_block, filter_cons.
  case_decide; [by rewrite emit_cons|done].
Qed.

Lemma filter_eq_absent `{EqDecision A} (x : A) (l : list A) :
  x ∉ l → filter (λ y, y = x) l = [].
Proof.
  induction l as [|y l IH]; intros Hx; [done|].
  apply not_elem_of_cons in Hx as [Hxy Hx].
  rewrite filter_cons, decide_False by done. by apply IH.
Qed.

Lemma filter_eq_once `{EqDecision A} (x : A) (l : list A) :
  x ∈ l → NoDup l → filter (λ y, y = x) l = [x].
Proof.
  intros Hx Hnd. revert Hx.
  induction Hnd as [|y l Hy Hnd IH]; intros Hx; [by apply elem_of_nil in Hx|].
  rewrite filter_cons. case_decide as Hxy.
  - subst y. by rewrite filter_eq_absent.
  - apply elem_of_cons in Hx as [->|Hx]; [done|]. by apply IH.
Qed.

Lemma of_key_block (ws : list token) (w : token) (g : category) :
  length (of_key (w, g) ((λ w', ((w', g), 1%Z)) <$> ws)) = occurrences w ws.
Proof.
  unfold of_key, occurrences. induction ws as [|w' ws IH]; [done|].
  rewrite fmap_cons, !filter_cons. simpl.
  destruct (decide (w' = w)) as [->|Hne].
  - rewrite decide_True by done. simpl. by rewrite IH.
  - rewrite decide_False by congruence. done.
Qed.

Lemma of_key_block_other (ws : list token) (w : token) (g g' : category) :
  g' ≠ g → of_key (w, g) ((λ w', ((w', g'), 1%Z)) <$> ws) = [].
Proof.
  intros Hne. unfold of_key. induction ws as [|w' ws IH]; [done|].
  rewrite fmap_cons, filter_cons. simpl.
  rewrite decide_False by congruence. done.
Qed.

Lemma of_key_emit (ws : list token) (gs : list category) (w : token) (g : category) :
  length (of_key (w, g) (emit ws gs)) = occurrences w ws * occurrences g gs.
Proof.
  induction gs as [|g' gs IH]; [unfold occurrences; simpl; lia|].
  rewrite emit_cons, of_key_app, length_app, IH.
  unfold occurrences at 4. rewrite filter_cons.
  destruct (decide (g' = g)) as [->|Hne].
  - rewrite of_key_block. simpl. unfold occurrences. lia.
  - by rewrite of_key_block_other.
Qed.

Lemma mapper_row_ok (data : row) (ws : list token) (gs : list category) :
  title_words preprocess_text data = Ok ws → row_genres data = Ok gs →
  mapper_row preprocess_text data = Ok (emit ws gs).
Proof. intros Hw Hg. unfold mapper_row. by rewrite Hw, Hg. Qed.

Lemma split_sep_from_nonempty (sep : ascii) (cur s : string) :
  Py.split_sep_from sep cur s ≠ [].
Proof.
  revert cur. induction s as [|c s IH]; intros cur; simpl; [done|].
  destruct (Ascii.eqb c sep); [done|apply IH].
Qed.

Lemma split_genres_nonempty (s : string) :
  ∃ g gs, split_genres (Str s) = Ok (g :: gs).
Proof.
  simpl. unfold Py.split_sep.
  destruct (Py.split_sep_from "|" "" s) as [|g gs] eqn:Hs.
  - by apply split_sep_from_nonempty in Hs.
  - by exists g, gs.
Qed.
End Emitter.

Lemma total_of_ones (es : list emission) :
  Forall (λ e, e.2 = 1%Z) es → total_of es.*2 = Z.of_nat (length es).
Proof.
  intros Hes. unfold total_of. rewrite <- PyFacts.sum_foldr, PyFacts.sum_ones.
  - by rewrite length_fmap.
  - by apply Forall_fmap.
Qed.

Lemma of_key_ones (k : key1) (es : list emission) :
  Forall (λ e, e.2 = 1%Z) es → Forall (λ e, e.2 = 1%Z) (of_key k es).
Proof.
  rewrite !Forall_forall. intros Hes e He.
  apply list_elem_of_filter in He as [_ He]. by apply Hes.
Qed.

(** C3: a row whose title has the words [ws] and whose genres field has the
    labels [gs] makes the Emitter produce |ws| * |gs| emissions, all with
    count 1: the one for the j-th word and the i-th label stands at position
    i * |ws| + j, so that the key (w, g) is emitted once for every pair of an
    occurrence of w in [ws] and an occurrence of g in [gs]. *)
Theorem mapper_row_emits_product
    (preprocess_text : cell → result string) (data : row)
    (ws : list token) (gs : list category) :
  title_words preprocess_text data = Ok ws →
  row_genres data = Ok gs →
  ∃ out,
    mapper_row preprocess_text data = Ok out ∧
    length out = length ws * length gs ∧
    Forall (λ e, e.2 = 1%Z) out ∧
    (∀ i j g w, gs !! i = Some g → ws !! j = Some w →
                out !! (i * length ws + j) = Some ((w, g), 1%Z)) ∧
    (∀ w g, length (of_key (w, g) out) = occurrences w ws * occurrences g gs).
Proof.
  intros Hw Hg. exists (emit ws gs).
  split; [by apply mapper_row_ok|].
  split; [apply emit_length|].
  split; [apply emit_ones|].
  split; [intros i j g w; apply emit_lookup|].
  intros w g. apply of_key_emit.
Qed.

Lemma mapper_row_emits_product_witness :
  title_words keep_text (movie "dark water" "Action|Drama") = Ok ["dark"; "water"] ∧
  row_genres (movie "dark water" "Action|Drama") = Ok ["Action"; "Drama"] ∧
  ∃ out,
    mapper_row keep_text (movie "dark water" "Action|Drama") = Ok out ∧
    length out = 2 * 2 ∧
    Forall (λ e, e.2 = 1%Z) out ∧
    (∀ i j g w, ["Action"; "Drama"] !! i = Some g → ["dark"; "water"] !! j = Some w →
                out !! (i * 2 + j) = Some ((w, g), 1%Z)) ∧
    (∀ w g, length (of_key (w, g) out)
            = occurrences w ["dark"; "water"] * occurrences g ["Action"; "Drama"]).
Proof.
  split; [reflexivity|]. split; [reflexivity|].
  apply (mapper_row_emits_product keep_text (movie "dark water" "Action|Drama")
           ["dark"; "water"] ["Action"; "Drama"]); reflexivity.
Defined.

(** C7 (as stated, refuted): a row without a title column raises KeyError
    whatever the preprocessing is; a row whose genres field is the empty
    string has the one label "" and emits one pair per word under it; a row
    whose genres field is NaN raises AttributeError. *)
Lemma mapper_row_missing_fields :
  (∀ preprocess_text,
     no_text [("genres", Str "Action")] ∧
     mapper_row preprocess_text [("genres", Str "Action")] = Raise (KeyError "title")) ∧
  (no_labels (movie "dark water" "") ∧
   mapper_row keep_text (movie "dark water" "")
   = Ok [(("dark", ""), 1%Z); (("water", ""), 1%Z)]) ∧
  (no_labels [("title", Str "dark water"); ("genres", NaN)] ∧
   mapper_row keep_text [("title", Str "dark water"); ("genres", NaN)]
   = Raise (AttributeError "split")) ∧
  ¬ (∀ data, (no_text data → mapper_row keep_text data = Ok []) ∧
             (no_labels data → mapper_row keep_text data = Ok [])).
Proof.
  split; [|split; [|split]].
  - intros preprocess_text. split; [by right; right|reflexivity].
  - split; [by left|reflexivity].
  - split; [by right|reflexivity].
  - intros H. destruct (H (movie "dark water" "")) as [_ H2].
    discriminate H2. by left.
Qed.

(** C7 (amended): for a row whose genres field is a string, a title without
    words gives zero emissions and no error; such a row emits nothing only
    when its title has no words, because the genres string always has at
    least one label; with the empty genres string it emits one pair per
    word, under the label "". *)
Theorem mapper_row_no_words
    (preprocess_text : cell → result string) (data : row) (s : string) :
  getitem data "genres" = Ok (Str s) →
  (title_words preprocess_text data = Ok [] → mapper_row preprocess_text data = Ok []) ∧
  (∀ ws, title_words preprocess_text data = Ok ws →
     ∃ out, mapper_row preprocess_text data = Ok out ∧
            (out = [] ↔ ws = []) ∧
            (s = "" → out = (λ w, ((w, ""), 1%Z)) <$> ws)).
Proof.
  intros Hs.
  destruct (split_genres_nonempty s) as (g & gs & Hgs).
  assert (Hg : row_genres data = Ok (g :: gs)).
  { unfold row_genres. rewrite Hs. exact Hgs. }
  split.
  - intros Hw. rewrite (mapper_row_ok _ _ _ _ Hw Hg). by rewrite emit_nil_words.
  - intros ws Hw. exists (emit ws (g :: gs)).
    split; [by apply mapper_row_ok|]. split.
    + rewrite <- !length_zero_iff_nil, emit_length. simpl. lia.
    + intros ->. simpl in Hgs. injection Hgs as <- <-.
      by rewrite emit_cons, emit_nil_genres, app_nil_r.
Qed.

Lemma mapper_row_no_words_witness :
  getitem (movie "" "Action") "genres" = Ok (Str "Action") ∧
  title_words keep_text (movie "" "Action") = Ok [] ∧
  mapper_row keep_text (movie "" "Action") = Ok [].
Proof.
  split; [reflexivity|]. split; [reflexivity|].
  apply (mapper_row_no_words keep_text (movie "" "Action") "Action"); reflexivity.
Defined.



(** ** Shuffles *)

Module MRFacts.
Section Shuffle.
Context {K V : Type} `{EqDecision K}.
Implicit Types (k : K) (kvs : list (K * V)) (gs : list (K * list V)).

Lemma values_of_nil k : MR.values_of k (@nil (K * V)) = [].
Proof. reflexivity. Qed.

Lemma values_of_cons k kv kvs :
  MR.values_of k (kv :: kvs)
  = if decide (kv.1 = k) then kv.2 :: MR.values_of k kvs else MR.values_of k kvs.
Proof. unfold MR.values_of. rewrite filter_cons. by case_decide. Qed.

Lemma values_of_app k kvs1 kvs2 :
  MR.values_of k (kvs1 ++ kvs2) = MR.values_of k kvs1 ++ MR.values_of k kvs2.
Proof. unfold MR.values_of. by rewrite filter_app, fmap_app. Qed.

#[global] Instance values_of_perm k : Proper ((≡ₚ) ==> (≡ₚ)) (MR.values_of (V:=V) k).
Proof. intros kvs1 kvs2 Hp. unfold MR.values_of. by rewrite Hp. Qed.

Lemma values_of_group k k' (vs : list V) :
  MR.values_of k (pair k' <$> vs) = if decide (k' = k) then vs else [].
Proof.
  induction vs as [|v vs IH]; [by case_decide|].
  rewrite fmap_cons, values_of_cons, IH. simpl. by case_decide.
Qed.

Lemma values_of_absent k kvs : k ∉ kvs.*1 → MR.values_of k kvs = [].
Proof.
  induction kvs as [|kv kvs IH]; intros Hk; [done|].
  rewrite fmap_cons in Hk. apply not_elem_of_cons in Hk as [Hne Hk].
  rewrite values_of_cons, decide_False by done. by apply IH.
Qed.

Lemma values_of_present k kvs : k ∈ kvs.*1 → MR.values_of k kvs ≠ [].
Proof.
  induction kvs as [|kv kvs IH]; intros Hk; [by apply elem_of_nil in Hk|].
  rewrite values_of_cons. case_decide as Hkv; [done|].
  rewrite fmap_cons in Hk. apply elem_of_cons in Hk as [->|Hk]; [done|].
  by apply IH.
Qed.

Lemma ungroup_cons (g : K * list V) gs :
  MR.ungroup (g :: gs) = (pair g.1 <$> g.2) ++ MR.ungroup gs.
Proof. unfold MR.ungroup. by rewrite bind_cons. Qed.

Lemma values_of_ungroup_absent k gs :
  k ∉ gs.*1 → MR.values_of k (MR.ungroup gs) = [].
Proof.
  induction gs as [|g gs IH]; intros Hk; [done|].
  rewrite fmap_cons in Hk. apply not_elem_of_cons in Hk as [Hne Hk].
  rewrite ungroup_cons, values_of_app, values_of_group, IH by done.
  by rewrite decide_False.
Qed.

Lemma values_of_ungroup k (vs : list V) gs :
  NoDup gs.*1 → (k, vs) ∈ gs → MR.values_of k (MR.ungroup gs) = vs.
Proof.
  induction gs as [|[k' vs'] gs IH]; intros Hnd Hin; [by apply elem_of_nil in Hin|].
  rewrite fmap_cons in Hnd. apply NoDup_cons in Hnd as [Hg Hnd]. simpl in Hg.
  rewrite ungroup_cons, values_of_app, values_of_group. simpl.
  apply elem_of_cons in Hin as [Heq|Hin].
  - injection Heq as <- <-.
    rewrite decide_True, values_of_ungroup_absent by done. apply app_nil_r.
  - assert (k' ≠ k) as Hne.
    { intros ->. apply Hg. apply list_elem_of_fmap. by exists (k, vs). }
    by rewrite decide_False, IH.
Qed.

Lemma keys_ungroup k gs :
  Forall (λ g, g.2 ≠ []) gs → k ∈ (MR.ungroup gs).*1 ↔ k ∈ gs.*1.
Proof.
  induction 1 as [|[k' vs] gs Hvs _ IH]; [done|].
  rewrite ungroup_cons, fmap_app, elem_of_app, IH, fmap_cons, elem_of_cons.
  simpl in *. rewrite <- list_fmap_compose.
  destruct vs as [|v vs]; [done|].
  rewrite fmap_cons, elem_of_cons. simpl. split.
  - intros [[Hk|Hk]|Hk]; [by left| |by right].
    apply list_elem_of_fmap in Hk as (v' & -> & _). by left.
  - intros [Hk|Hk]; [by left; left|by right].
Qed.

Lemma shuffles_values kvs gs k (vs : list V) :
  MR.shuffles kvs gs → (k, vs) ∈ gs → vs ≡ₚ MR.values_of k kvs.
Proof.
  intros [Hnd _ Hp] Hin. rewrite <- Hp. by rewrite (values_of_ungroup k vs).
Qed.

Lemma shuffles_keys kvs gs k :
  MR.shuffles kvs gs → k ∈ gs.*1 ↔ k ∈ kvs.*1.
Proof. intros [_ Hne Hp]. rewrite <- Hp. by rewrite keys_ungroup. Qed.

Lemma group_as_keys (ks : list K) kvs : (MR.group_as ks kvs).*1 = ks.
Proof.
  unfold MR.group_as. rewrite <- list_fmap_compose. apply list_fmap_id.
Qed.

Lemma values_of_others k k' kvs :
  k' ≠ k → MR.values_of k' (filter (λ kv, kv.1 ≠ k) kvs) = MR.values_of k' kvs.
Proof.
  intros Hne. induction kvs as [|kv kvs IH]; [done|].
  rewrite filter_cons, (values_of_cons k' kv kvs).
  destruct (decide (kv.1 ≠ k)) as [Hkv|Hkv].
  - by rewrite values_of_cons, IH.
  - apply dec_stable in Hkv. rewrite decide_False by congruence. done.
Qed.

Lemma group_as_others k (ks : list K) kvs :
  k ∉ ks → MR.group_as ks (filter (λ kv, kv.1 ≠ k) kvs) = MR.group_as ks kvs.
Proof.
  intros Hk. unfold MR.group_as. apply list_fmap_ext.
  intros i k' Hk'. rewrite values_of_others; [done|].
  intros ->. apply Hk. by eapply list_elem_of_lookup_2.
Qed.

Lemma ungroup_values_of k kvs :
  pair k <$> MR.values_of k kvs = filter (λ kv, kv.1 = k) kvs.
Proof.
  induction kvs as [|[k' v] kvs IH]; [done|].
  rewrite values_of_cons, filter_cons. simpl.
  case_decide; [|done]. subst k'. by rewrite fmap_cons, IH.
Qed.

Lemma ungroup_group_as (ks : list K) kvs :
  NoDup ks → (∀ k, k ∈ kvs.*1 → k ∈ ks) → MR.ungroup (MR.group_as ks kvs) ≡ₚ kvs.
Proof.
  intros Hnd. revert kvs.
  induction Hnd as [|k ks Hk Hnd IH]; intros kvs Hks.
  - destruct kvs as [|kv kvs]; [done|].
    exfalso. eapply not_elem_of_nil, Hks. rewrite fmap_cons. by left.
  - unfold MR.group_as. rewrite fmap_cons. fold (MR.group_as ks kvs).
    rewrite ungroup_cons. simpl. rewrite ungroup_values_of.
    rewrite <- (group_as_others k) by done.
    rewrite IH.
    + apply filter_app_complement.
    + intros k' Hk'. apply list_elem_of_fmap in Hk' as (kv & -> & Hkv).
      apply list_elem_of_filter in Hkv as [Hne Hkv].
      assert (kv.1 ∈ k :: ks) as Hin.
      { apply Hks, list_elem_of_fmap. by exists kv. }
      apply elem_of_cons in Hin as [?|?]; done.
Qed.

(** The keys may arrive in any order. *)
Lemma group_as_shuffles (ks : list K) kvs :
  NoDup ks → (∀ k, k ∈ ks ↔ k ∈ kvs.*1) → MR.shuffles kvs (MR.group_as ks kvs).
Proof.
  intros Hnd Hks. split.
  - by rewrite group_as_keys.
  - unfold MR.group_as. apply Forall_fmap, Forall_forall. intros k Hk. simpl.
    by apply values_of_present, Hks.
  - apply ungroup_group_as; [done|]. intros k. apply Hks.
Qed.

Lemma group_by_key_shuffles kvs : MR.shuffles kvs (MR.group_by_key kvs).
Proof.
  apply group_as_shuffles; [apply NoDup_remove_dups|].
  intros k. apply elem_of_remove_dups.
Qed.

(** A stage that does not depend on the order of the values sees only the
    order of the keys. *)
Lemma run_stage_shuffles {O} (f : K → list V → list O) kvs gs :
  (∀ k vs vs', vs ≡ₚ vs' → f k vs = f k vs') →
  MR.shuffles kvs gs →
  MR.run_stage f gs = MR.run_stage f (MR.group_as gs.*1 kvs).
Proof.
  intros Hf Hs. unfold MR.run_stage, MR.group_as.
  assert (Hin : ∀ g, g ∈ gs → f g.1 g.2 = f g.1 (MR.values_of g.1 kvs)).
  { intros [k vs] Hg. apply Hf. by eapply shuffles_values. }
  clear Hs. induction gs as [|g gs IH]; [done|].
  rewrite !fmap_cons, !bind_cons. simpl. f_equal.
  - apply Hin. by left.
  - apply IH. intros g' Hg'. apply Hin. by right.
Qed.

(** A shuffle can be checked by computation. *)
Lemma shuffles_check `{EqDecision V} kvs gs :
  bool_decide (NoDup gs.*1) && bool_decide (Forall (λ g, g.2 ≠ []) gs)
    && bool_decide (MR.ungroup gs ≡ₚ kvs) = true →
  MR.shuffles kvs gs.
Proof.
  rewrite !andb_true_iff, !bool_decide_eq_true. by intros [[H1 H2] H3].
Qed.
End Shuffle.
End MRFacts.

(** ** Round 1: the Local and Global Aggregators *)

Lemma traverse_ok {A B} (f : A → result B) (l : list A) (l' : list B) :
  traverse f l = Ok l' ↔ Forall2 (λ a b, f a = Ok b) l l'.
Proof.
  revert l'. induction l as [|a l IH]; intros l'; simpl.
  - split; [intros [= <-]; constructor|by inversion 1].
  - destruct (f a) as [b|e] eqn:Hfa; simpl.
    + destruct (traverse f l) as [bs|e] eqn:Hl; simpl.
      * split.
        -- intros [= <-]. constructor; [done|]. by apply IH.
        -- inversion 1 as [|? b' ? bs' Hb Hbs]; subst.
           apply IH in Hbs. congruence.
      * split; [done|]. inversion 1 as [|? b' ? bs' Hb Hbs]; subst.
        by apply IH in Hbs.
    + split; [done|]. inversion 1; congruence.
Qed.

Section Totals.
Context {K : Type} `{EqDecision K}.
Implicit Types (k : K) (kvs : list (K * Z)) (gs : list (K * list Z)).

Lemma total_for_nil k : total_for k (@nil (K * Z)) = 0%Z.
Proof. reflexivity. Qed.

Lemma total_for_cons k kv kvs :
  total_for k (kv :: kvs)
  = ((if decide (kv.1 = k) then kv.2 else 0) + total_for k kvs)%Z.
Proof.
  unfold total_for. rewrite MRFacts.values_of_cons.
  case_decide; [by rewrite PyFacts.sum_cons|lia].
Qed.

Lemma total_for_app k kvs1 kvs2 :
  total_for k (kvs1 ++ kvs2) = (total_for k kvs1 + total_for k kvs2)%Z.
Proof. unfold total_for. by rewrite MRFacts.values_of_app, PyFacts.sum_app. Qed.

#[global] Instance total_for_perm k : Proper ((≡ₚ) ==> (=)) (total_for k).
Proof. intros kvs1 kvs2 Hp. unfold total_for. by rewrite Hp. Qed.

Lemma total_for_group k k' (vs : list Z) :
  total_for k (pair k' <$> vs) = if decide (k' = k) then Py.sum vs else 0%Z.
Proof. unfold total_for. rewrite MRFacts.values_of_group. by case_decide. Qed.

Lemma total_for_concat_Forall2 k (P : relation (list (K * Z))) (ls ls' : list (list (K * Z))) :
  (∀ l l', P l l' → total_for k l' = total_for k l) →
  Forall2 P ls ls' → total_for k (concat ls') = total_for k (concat ls).
Proof.
  intros HP. induction 1 as [|l l' ls ls' Hl _ IH]; [done|].
  simpl. rewrite !total_for_app, IH. by rewrite (HP l l').
Qed.

Lemma keys_concat_Forall2 k (P : relation (list (K * Z))) (ls ls' : list (list (K * Z))) :
  (∀ l l', P l l' → k ∈ l'.*1 ↔ k ∈ l.*1) →
  Forall2 P ls ls' → k ∈ (concat ls').*1 ↔ k ∈ (concat ls).*1.
Proof.
  intros HP. induction 1 as [|l l' ls ls' Hl _ IH]; [done|].
  simpl. rewrite !fmap_app, !elem_of_app, IH. by rewrite (HP l l').
Qed.
End Totals.

Section Round1.
Variable preprocess_text : cell → result string.

Lemma combiner_stage_cons (g : key1 * list Z) (gs : list (key1 * list Z)) :
  MR.run_stage combiner_sum (g :: gs)
  = (g.1, Py.sum g.2) :: MR.run_stage combiner_sum gs.
Proof. unfold MR.run_stage. by rewrite bind_cons. Qed.

(** The combiner keeps the total of every key. *)
Lemma combiner_stage_total (k : key1) (gs : list (key1 * list Z)) :
  total_for k (MR.run_stage combiner_sum gs) = total_for k (MR.ungroup gs).
Proof.
  induction gs as [|g gs IH]; [done|].
  rewrite combiner_stage_cons, MRFacts.ungroup_cons, total_for_cons,
    total_for_app, total_for_group, IH.
  done.
Qed.

Lemma combiner_stage_keys (gs : list (key1 * list Z)) :
  (MR.run_stage combiner_sum gs).*1 = gs.*1.
Proof.
  induction gs as [|g gs IH]; [done|].
  by rewrite combiner_stage_cons, !fmap_cons, IH.
Qed.

Lemma combined_total (k : key1) (m c : list emission) :
  combined m c → total_for k c = total_for k m.
Proof.
  intros (gs & Hs & ->). rewrite combiner_stage_total.
  by rewrite (MR.shuffle_perm _ _ Hs).
Qed.

Lemma combined_keys (k : key1) (m c : list emission) :
  combined m c → k ∈ c.*1 ↔ k ∈ m.*1.
Proof.
  intros (gs & Hs & ->). rewrite combiner_stage_keys.
  by apply MRFacts.shuffles_keys.
Qed.

Lemma combined_group_by_key (m : list emission) :
  combined m (MR.run_stage combiner_sum (MR.group_by_key m)).
Proof. exists (MR.group_by_key m). split; [apply MRFacts.group_by_key_shuffles|done]. Qed.

Lemma sent_total (c : bool) (ms ss : list (list emission)) (k : key1) :
  (if c then Forall2 combined ms ss else ss = ms) →
  total_for k (concat ss) = total_for k (concat ms).
Proof.
  destruct c; [|by intros ->].
  apply total_for_concat_Forall2. intros l l'. apply combined_total.
Qed.

Lemma sent_keys (c : bool) (ms ss : list (list emission)) (k : key1) :
  (if c then Forall2 combined ms ss else ss = ms) →
  k ∈ (concat ss).*1 ↔ k ∈ (concat ms).*1.
Proof.
  destruct c; [|by intros ->].
  apply keys_concat_Forall2. intros l l'. apply combined_keys.
Qed.

Lemma reducer_perm (k : key1) (vs vs' : list Z) :
  vs ≡ₚ vs' → reducer k vs = reducer k vs'.
Proof. intros Hp. destruct k as [w g]. unfold reducer. by rewrite Hp. Qed.

Lemma reducer_stage_group_as (ks : list key1) (es : list emission) :
  MR.run_stage reducer (MR.group_as ks es) = round1_of ks es.
Proof.
  unfold MR.run_stage, MR.group_as, round1_of.
  induction ks as [|[w g] ks IH]; [done|].
  by rewrite !fmap_cons, bind_cons, IH.
Qed.

Lemma round1_of_ext (ks : list key1) (es es' : list emission) :
  (∀ k, total_for k es = total_for k es') → round1_of ks es = round1_of ks es'.
Proof.
  intros Ht. unfold round1_of. apply list_fmap_ext. intros _ k _. by rewrite Ht.
Qed.

(** What round 1 puts out is fixed by the emissions of the mappers and by
    the order in which the keys arrive at the reducer. *)
Lemma round1_run_elim (c : bool) (files : list (list row)) (ρ : run) :
  round1_run preprocess_text c files ρ →
  NoDup (groups1 ρ).*1 ∧
  (∀ k, k ∈ (groups1 ρ).*1 ↔ k ∈ (concat (mapped ρ)).*1) ∧
  round1 ρ = round1_of (groups1 ρ).*1 (concat (mapped ρ)).
Proof.
  intros [Hm Hs Hg Hr]. split; [apply Hg|]. split.
  - intros k. rewrite (MRFacts.shuffles_keys _ _ k Hg). by eapply sent_keys.
  - rewrite Hr, (MRFacts.run_stage_shuffles reducer _ _ reducer_perm Hg).
    rewrite reducer_stage_group_as. apply round1_of_ext.
    intros k. by eapply sent_total.
Qed.

Lemma round1_run_intro (c : bool) (files : list (list row))
    (ms : list (list emission)) (ks : list key1) :
  traverse (mapper_csv preprocess_text) files = Ok ms →
  NoDup ks → (∀ k, k ∈ ks ↔ k ∈ (concat ms).*1) →
  ∀ gs2 out, ∃ ρ,
    round1_run preprocess_text c files ρ ∧
    mapped ρ = ms ∧ round1 ρ = round1_of ks (concat ms) ∧
    groups2 ρ = gs2 ∧ output ρ = out.
Proof.
  intros Hm Hnd Hks gs2 out.
  set (ss := if c then (λ m, MR.run_stage combiner_sum (MR.group_by_key m)) <$> ms
             else ms).
  assert (Hss : if c then Forall2 combined ms ss else ss = ms).
  { unfold ss. destruct c; [|done].
    apply Forall2_fmap_r, Forall_Forall2_diag, Forall_forall.
    intros m _. apply combined_group_by_key. }
  exists {| mapped := ms; sent := ss; groups1 := MR.group_as ks (concat ss);
            round1 := round1_of ks (concat ms); groups2 := gs2; output := out |}.
  split; [|done]. split; simpl; [done|done| |].
  - apply MRFacts.group_as_shuffles; [done|].
    intros k. rewrite Hks. symmetry. by eapply sent_keys.
  - rewrite reducer_stage_group_as. apply round1_of_ext.
    intros k. symmetry. by eapply sent_total.
Qed.
End Round1.

(** ** The executable run *)

Section RemoveDups.
Context {A : Type} `{EqDecision A}.
Implicit Types l : list A.

Lemma remove_dups_cons x l :
  remove_dups (x :: l) = if decide (x ∈ l) then remove_dups l else x :: remove_dups l.
Proof. reflexivity. Qed.

Lemma remove_dups_app_ext l k k' :
  remove_dups k = remove_dups k' → remove_dups (l ++ k) = remove_dups (l ++ k').
Proof.
  intros Hk. induction l as [|x l IH]; [done|].
  rewrite <- !app_comm_cons, !remove_dups_cons, IH.
  apply decide_ext.
  by rewrite !elem_of_app, <- (elem_of_remove_dups k), Hk, elem_of_remove_dups.
Qed.

Lemma remove_dups_app_l l k :
  remove_dups (remove_dups l ++ k) = remove_dups (l ++ k).
Proof.
  induction l as [|x l IH]; [done|].
  rewrite <- app_comm_cons, !remove_dups_cons.
  destruct (decide (x ∈ l)) as [Hx|Hx].
  - rewrite IH, decide_True; [done|]. apply elem_of_app. by left.
  - rewrite <- app_comm_cons, remove_dups_cons, IH.
    apply decide_ext.
    by rewrite !elem_of_app, elem_of_remove_dups.
Qed.

Lemma remove_dups_concat (ls : list (list A)) :
  remove_dups (concat (remove_dups <$> ls)) = remove_dups (concat ls).
Proof.
  induction ls as [|l ls IH]; [done|].
  simpl. rewrite remove_dups_app_l. by apply remove_dups_app_ext.
Qed.
End RemoveDups.

Section Exec.
Variable preprocess_text : cell → result string.
Variable maxWords : option Z.

Lemma fmap_fst_concat {A B} (ls : list (list (A * B))) :
  (concat ls).*1 = concat ((λ l : list (A * B), l.*1) <$> ls).
Proof.
  induction ls as [|l ls IH]; [done|]. simpl. by rewrite fmap_app, IH.
Qed.

Lemma exec_keys (ms : list (list emission)) :
  remove_dups (concat ((λ m, MR.run_stage combiner_sum (MR.group_by_key m)) <$> ms)).*1
  = remove_dups (concat ms).*1.
Proof.
  rewrite !fmap_fst_concat, <- list_fmap_compose.
  rewrite <- (remove_dups_concat ((λ l : list emission, l.*1) <$> ms)),
    <- !list_fmap_compose.
  f_equal. f_equal. apply list_fmap_ext. intros _ m _. simpl.
  unfold MR.group_by_key.
  by rewrite combiner_stage_keys, MRFacts.group_as_keys.
Qed.

(** Round 1 of the executable run, with or without the combiner. *)
Lemma exec_run_round1 (c : bool) (files : list (list row)) (ρ : run) :
  exec_run preprocess_text maxWords c files = Ok ρ →
  round1 ρ = round1_of (remove_dups (concat (mapped ρ)).*1) (concat (mapped ρ)).
Proof.
  unfold exec_run. destruct (traverse _ files) as [ms|e]; [|done].
  intros [= <-]. simpl. unfold MR.group_by_key at 1.
  rewrite reducer_stage_group_as. destruct c; [|done].
  rewrite exec_keys. apply round1_of_ext. intros k.
  apply (total_for_concat_Forall2 k combined); [apply combined_total|].
  apply Forall2_fmap_r, Forall_Forall2_diag, Forall_forall.
  intros m _. apply combined_group_by_key.
Qed.

Lemma exec_run_valid (c : bool) (files : list (list row)) (ρ : run) :
  exec_run preprocess_text maxWords c files = Ok ρ →
  valid_run preprocess_text maxWords c files ρ.
Proof.
  unfold exec_run. destruct (traverse _ files) as [ms|e] eqn:Hm; [|done].
  intros [= <-]. split; [split|..]; simpl; try done.
  - destruct c; [|done].
    apply Forall2_fmap_r, Forall_Forall2_diag, Forall_forall.
    intros m _. apply combined_group_by_key.
  - apply MRFacts.group_by_key_shuffles.
  - apply MRFacts.group_by_key_shuffles.
Qed.

Lemma exec_run_total (c : bool) (files : list (list row)) (ms : list (list emission)) :
  traverse (mapper_csv preprocess_text) files = Ok ms →
  ∃ ρ, exec_run preprocess_text maxWords c files = Ok ρ ∧ mapped ρ = ms.
Proof. intros Hm. unfold exec_run. rewrite Hm. simpl. eauto. Qed.

Lemma run_job_combiner (files : list (list row)) :
  run_job preprocess_text maxWords true files
  = run_job preprocess_text maxWords false files.
Proof.
  unfold run_job.
  destruct (traverse (mapper_csv preprocess_text) files) as [ms|e] eqn:Hm.
  - destruct (exec_run_total true files ms Hm) as (ρ1 & H1 & Hm1).
    destruct (exec_run_total false files ms Hm) as (ρ2 & H2 & Hm2).
    rewrite H1, H2. simpl. f_equal.
    pose proof (exec_run_round1 _ _ _ H1) as Hr1.
    pose proof (exec_run_round1 _ _ _ H2) as Hr2.
    rewrite Hm1 in Hr1. rewrite Hm2 in Hr2.
    unfold exec_run in H1, H2. rewrite Hm in H1, H2. simpl in H1, H2.
    injection H1 as <-. injection H2 as <-. simpl in *. by rewrite Hr1, Hr2.
  - unfold exec_run. by rewrite Hm.
Qed.

Lemma round1_run_switch (c c' : bool) (files : list (list row)) (ρ : run) :
  round1_run preprocess_text c files ρ →
  ∃ ρ', round1_run preprocess_text c' files ρ' ∧
        round1 ρ' = round1 ρ ∧ groups2 ρ' = groups2 ρ ∧ output ρ' = output ρ.
Proof.
  intros Hρ. destruct (round1_run_elim _ _ _ _ Hρ) as (Hnd & Hks & Hr).
  destruct (round1_run_intro preprocess_text c' files (mapped ρ) (groups1 ρ).*1
              (run_mapped _ _ _ _ Hρ) Hnd Hks (groups2 ρ) (output ρ))
    as (ρ' & Hρ' & _ & Hr' & Hg' & Ho').
  exists ρ'. by rewrite Hr, Hr'.
Qed.

Lemma valid_run_switch (c c' : bool) (files : list (list row)) (ρ : run) :
  valid_run preprocess_text maxWords c files ρ →
  ∃ ρ', valid_run preprocess_text maxWords c' files ρ' ∧ output ρ' = output ρ.
Proof.
  intros [H1 Hg Ho].
  destruct (round1_run_switch c c' files ρ H1) as (ρ' & H1' & Hr & Hg' & Ho').
  exists ρ'. split; [|done]. split; [done|..].
  - by rewrite Hr, Hg'.
  - by rewrite Ho', Hg'.
Qed.
End Exec.

Lemma run_step1_sound (preprocess_text : cell → result string) (maxWords : option Z)
    (c : bool) (files : list (list row)) (r1 : list ranked) :
  run_step1 preprocess_text maxWords c files = Ok r1 → step1 preprocess_text c files r1.
Proof.
  unfold run_step1.
  destruct (exec_run preprocess_text maxWords c files) as [ρ|e] eqn:Hρ; [|done].
  intros [= <-]. exists ρ. split; [|done]. by eapply exec_run_valid.
Qed.

Lemma run_job_sound (preprocess_text : cell → result string) (maxWords : option Z)
    (c : bool) (files : list (list row)) (out : list ranked) :
  run_job preprocess_text maxWords c files = Ok out →
  job preprocess_text maxWords c files out.
Proof.
  unfold run_job.
  destruct (exec_run preprocess_text maxWords c files) as [ρ|e] eqn:Hρ; [|done].
  intros [= <-]. exists ρ. split; [|done]. by eapply exec_run_valid.
Qed.

(** C5: the job with the combiner and the job without it have the same
    results: the run that can be executed returns the same value (or raises
    the same error), the Global Aggregator has the same possible outputs, and
    so has the whole job, whatever the order of arrival at the reducers. *)
Theorem combiner_transparent
    (preprocess_text : cell → result string) (maxWords : option Z)
    (files : list (list row)) :
  run_job preprocess_text maxWords true files
  = run_job preprocess_text maxWords false files ∧
  (∀ r1, step1 preprocess_text true files r1 ↔ step1 preprocess_text false files r1) ∧
  (∀ out, job preprocess_text maxWords true files out
          ↔ job preprocess_text maxWords false files out).
Proof.
  split; [apply run_job_combiner|]. split.
  - intros r1. split; intros (ρ & Hρ & <-).
    + destruct (round1_run_switch preprocess_text true false files ρ Hρ)
        as (ρ' & Hρ' & Hr & _). by exists ρ'.
    + destruct (round1_run_switch preprocess_text false true files ρ Hρ)
        as (ρ' & Hρ' & Hr & _). by exists ρ'.
  - intros out. split; intros (ρ & Hρ & <-).
    + destruct (valid_run_switch preprocess_text maxWords true false files ρ Hρ)
        as (ρ' & Hρ' & Ho). by exists ρ'.
    + destruct (valid_run_switch preprocess_text maxWords false true files ρ Hρ)
        as (ρ' & Hρ' & Ho). by exists ρ'.
Qed.

(** ** The Global Aggregator counts occurrences *)

Section Counting.
Variable preprocess_text : cell → result string.

Lemma mapper_row_inv (data : row) (es : list emission) :
  mapper_row preprocess_text data = Ok es → es = row_emissions preprocess_text data.
Proof.
  unfold mapper_row, row_emissions, row_words, row_labels.
  destruct (title_words preprocess_text data) as [ws|e]; [|done].
  destruct (row_genres data) as [gs|e]; [|done].
  by intros [= <-].
Qed.

Lemma mapper_csv_inv (df : list row) (es : list emission) :
  mapper_csv preprocess_text df = Ok es → es = all_emissions preprocess_text df.
Proof.
  unfold mapper_csv.
  destruct (traverse (mapper_row preprocess_text) df) as [per_row|e] eqn:Ht; [|done].
  intros [= <-]. apply traverse_ok in Ht. unfold all_emissions.
  induction Ht as [|r es df per_row Hr _ IH]; [done|].
  rewrite bind_cons. simpl. by rewrite IH, (mapper_row_inv r es).
Qed.

Lemma mapped_inv (files : list (list row)) (ms : list (list emission)) :
  traverse (mapper_csv preprocess_text) files = Ok ms →
  concat ms = all_emissions preprocess_text (concat files).
Proof.
  intros Ht. apply traverse_ok in Ht. unfold all_emissions.
  induction Ht as [|df es files ms Hdf _ IH]; [done|].
  simpl. rewrite bind_app, IH. f_equal. by apply mapper_csv_inv.
Qed.

Lemma all_emissions_cons (r : row) (rows : list row) :
  all_emissions preprocess_text (r :: rows)
  = row_emissions preprocess_text r ++ all_emissions preprocess_text rows.
Proof. apply bind_cons. Qed.

#[global] Instance all_emissions_perm :
  Proper ((≡ₚ) ==> (≡ₚ)) (all_emissions preprocess_text).
Proof. intros rows rows' Hp. unfold all_emissions. by rewrite Hp. Qed.

Lemma all_emissions_ones (rows : list row) :
  Forall (λ e, e.2 = 1%Z) (all_emissions preprocess_text rows).
Proof.
  induction rows as [|r rows IH]; [constructor|].
  rewrite all_emissions_cons. apply Forall_app. split; [apply emit_ones|done].
Qed.

Lemma all_emissions_of_key (rows : list row) (w : token) (g : category) :
  length (of_key (w, g) (all_emissions preprocess_text rows))
  = global_count preprocess_text rows w g.
Proof.
  induction rows as [|r rows IH]; [done|].
  rewrite all_emissions_cons, of_key_app, length_app, IH.
  unfold row_emissions. by rewrite of_key_emit.
Qed.

Lemma all_emissions_of_genre (rows : list row) (g : category) :
  length (of_genre g (all_emissions preprocess_text rows))
  = category_count preprocess_text rows g.
Proof.
  induction rows as [|r rows IH]; [done|].
  rewrite all_emissions_cons, of_genre_app, length_app, IH.
  unfold row_emissions. rewrite of_genre_emit, emit_length. done.
Qed.

Lemma category_count_labelled (rows : list row) (g : category) :
  Forall (λ r, NoDup (row_labels r)) rows →
  category_count preprocess_text rows g = labelled_count preprocess_text rows g.
Proof.
  unfold category_count, labelled_count.
  induction 1 as [|r rows Hr _ IH]; [done|].
  rewrite filter_cons. simpl. rewrite IH. unfold occurrences.
  destruct (decide (g ∈ row_labels r)) as [Hg|Hg].
  - rewrite filter_eq_once by done. simpl. lia.
  - rewrite filter_eq_absent by done. simpl. lia.
Qed.

(** The total under a key is the number of its emissions. *)
Lemma total_for_ones (k : key1) (es : list emission) :
  Forall (λ e, e.2 = 1%Z) es → total_for k es = Z.of_nat (length (of_key k es)).
Proof.
  intros Hes. unfold total_for, MR.values_of. fold (of_key k es).
  rewrite PyFacts.sum_foldr. by apply total_of_ones, of_key_ones.
Qed.

Lemma values_of_round1_of (g : category) (ks : list key1) (es : list emission) :
  MR.values_of g (round1_of ks es)
  = (λ k, (k.1, total_for k es)) <$> filter (λ k, k.2 = g) ks.
Proof.
  unfold round1_of. induction ks as [|k ks IH]; [done|].
  rewrite fmap_cons, MRFacts.values_of_cons, filter_cons, IH. simpl.
  by case_decide.
Qed.

Lemma of_genre_group (g : category) (k : key1) (vs : list Z) :
  (of_genre g (pair k <$> vs)).*2 = if decide (k.2 = g) then vs else [].
Proof.
  unfold of_genre. induction vs as [|v vs IH]; [by case_decide|].
  rewrite fmap_cons, filter_cons. simpl.
  case_decide; [|done]. by rewrite fmap_cons, IH.
Qed.

Lemma sum_by_genre (g : category) (ks : list key1) (es : list emission) :
  Py.sum (of_genre g (MR.ungroup (MR.group_as ks es))).*2
  = Py.sum ((λ k, total_for k es) <$> filter (λ k, k.2 = g) ks).
Proof.
  induction ks as [|k ks IH]; [done|].
  unfold MR.group_as. rewrite fmap_cons. fold (MR.group_as ks es).
  rewrite MRFacts.ungroup_cons, of_genre_app, fmap_app, PyFacts.sum_app, IH.
  simpl. rewrite of_genre_group, filter_cons.
  case_decide; [by rewrite fmap_cons, PyFacts.sum_cons|].
  rewrite PyFacts.sum_nil. lia.
Qed.

Lemma tally_total_round1_of (g : category) (ks : list key1) (es : list emission) :
  NoDup ks → (∀ k, k ∈ ks ↔ k ∈ es.*1) →
  tally_total g (round1_of ks es) = Py.sum (of_genre g es).*2.
Proof.
  intros Hnd Hks. unfold tally_total, total_of.
  assert ((MR.values_of g (round1_of ks es)).*2
          = (λ k, total_for k es) <$> filter (λ k, k.2 = g) ks) as ->.
  { by rewrite values_of_round1_of, <- list_fmap_compose. }
  rewrite <- PyFacts.sum_foldr, <- sum_by_genre. unfold of_genre.
  rewrite MRFacts.ungroup_group_as; [done|done|]. intros k. apply Hks.
Qed.

Lemma step1_tally (c : bool) (files : list (list row)) (r1 : list ranked) (g : category) :
  step1 preprocess_text c files r1 →
  tally_total g r1 = Z.of_nat (category_count preprocess_text (concat files) g).
Proof.
  intros (ρ & Hρ & <-).
  destruct (round1_run_elim _ _ _ _ Hρ) as (Hnd & Hks & ->).
  rewrite tally_total_round1_of by done.
  rewrite (mapped_inv files (mapped ρ)) by apply Hρ.
  rewrite <- all_emissions_of_genre, PyFacts.sum_foldr.
  apply (total_of_ones (of_genre g _)). rewrite Forall_forall. intros e He.
  apply list_elem_of_filter in He as [_ He].
  revert e He. rewrite <- Forall_forall. apply all_emissions_ones.
Qed.
End Counting.

#[global] Instance category_count_perm preprocess_text :
  Proper ((≡ₚ) ==> (=) ==> (=)) (category_count preprocess_text).
Proof. intros rows rows' Hp g ? <-. unfold category_count. by rewrite Hp. Qed.

#[global] Instance global_count_perm preprocess_text :
  Proper ((≡ₚ) ==> (=) ==> (=) ==> (=)) (global_count preprocess_text).
Proof. intros rows rows' Hp w ? <- g ? <-. unfold global_count. by rewrite Hp. Qed.

(** C2 (as stated, refuted): a row that carries a label twice is counted
    twice under it.  On the one row with the title "dark" and the genres
    "Action|Action" the Global Aggregator puts out the count 2 under Action,
    while the rows labelled Action hold one word occurrence. *)
Lemma repeated_label_counts_twice :
  step1 keep_text true [[repeated_label]] [("Action", ("dark", 2%Z))] ∧
  step1 keep_text false [[repeated_label]] [("Action", ("dark", 2%Z))] ∧
  tally_total "Action" [("Action", ("dark", 2%Z))] = 2%Z ∧
  labelled_count keep_text [repeated_label] "Action" = 1 ∧
  ¬ (∀ (c : bool) (files : list (list row)) (r1 : list ranked) (g : category),
       step1 keep_text c files r1 →
       tally_total g r1 = Z.of_nat (labelled_count keep_text (concat files) g)).
Proof.
  assert (H1 : step1 keep_text true [[repeated_label]] [("Action", ("dark", 2%Z))]).
  { apply (run_step1_sound keep_text None). reflexivity. }
  assert (H2 : step1 keep_text false [[repeated_label]] [("Action", ("dark", 2%Z))]).
  { apply (run_step1_sound keep_text None). reflexivity. }
  split; [exact H1|]. split; [exact H2|].
  split; [reflexivity|]. split; [reflexivity|].
  intros H. specialize (H false _ _ "Action" H2). discriminate H.
Qed.

(** C2 (amended): however the rows of a corpus are split into input files,
    and with or without the combiner, the counts that the Global Aggregator
    puts out under a category add up to the number of word occurrences that
    the rows contribute to it, a row counting once for each time it carries
    the label; when no row repeats a label, that is the number of word
    occurrences in the titles of the rows labelled with the category. *)
Theorem global_tally_counts_occurrences
    (preprocess_text : cell → result string) (c : bool)
    (files : list (list row)) (rows : list row) (r1 : list ranked) (g : category) :
  concat files ≡ₚ rows →
  step1 preprocess_text c files r1 →
  tally_total g r1 = Z.of_nat (category_count preprocess_text rows g) ∧
  (Forall (λ r, NoDup (row_labels r)) rows →
   tally_total g r1 = Z.of_nat (labelled_count preprocess_text rows g)) ∧
  (∀ c' files' r1',
     concat files' ≡ₚ rows → step1 preprocess_text c' files' r1' →
     tally_total g r1' = tally_total g r1).
Proof.
  intros Hp Hs.
  assert (Hr1 : tally_total g r1 = Z.of_nat (category_count preprocess_text rows g)).
  { rewrite <- Hp. by eapply step1_tally. }
  split; [done|]. split.
  - intros Hnd. by rewrite Hr1, category_count_labelled.
  - intros c' files' r1' Hp' Hs'. rewrite Hr1, <- Hp'. by eapply step1_tally.
Qed.

Lemma global_tally_counts_occurrences_witness :
  concat two_files ≡ₚ two_movies ∧
  step1 keep_text true two_files two_files_round1 ∧
  tally_total "Action" two_files_round1
  = Z.of_nat (category_count keep_text two_movies "Action") ∧
  (Forall (λ r, NoDup (row_labels r)) two_movies →
   tally_total "Action" two_files_round1
   = Z.of_nat (labelled_count keep_text two_movies "Action")) ∧
  (∀ c' files' r1',
     concat files' ≡ₚ two_movies → step1 keep_text c' files' r1' →
     tally_total "Action" r1' = tally_total "Action" two_files_round1).
Proof.
  assert (Hs : step1 keep_text true two_files two_files_round1).
  { apply (run_step1_sound keep_text None). reflexivity. }
  split; [reflexivity|]. split; [exact Hs|].
  apply (global_tally_counts_occurrences keep_text true two_files two_movies
           two_files_round1 "Action"); [reflexivity|exact Hs].
Defined.

(** ** Round 2: the ranking of a category over all runs *)

Section Ranking.
Variable preprocess_text : cell → result string.
Variable maxWords : option Z.

Lemma slice_to_fmap {A B} (f : A → B) (l : list A) (stop : option Z) :
  f <$> Py.slice_to l stop = Py.slice_to (f <$> l) stop.
Proof.
  destruct stop as [n|]; [|done]. unfold Py.slice_to.
  rewrite length_fmap. destruct (0 <=? n)%Z; apply fmap_take.
Qed.

Lemma sorted_counts_perm (vs1 vs2 : list (token * Z)) :
  vs1 ≡ₚ vs2 → (Py.sorted vs1 snd true).*2 = (Py.sorted vs2 snd true).*2.
Proof.
  intros Hp.
  apply (StronglySorted_unique_strong (λ a b : Z, (b ≤ a)%Z)).
  - intros a b _ _ ? ?. lia.
  - apply (StronglySorted_fmap snd count_desc); [done|apply sorted_count_desc].
  - apply (StronglySorted_fmap snd count_desc); [done|apply sorted_count_desc].
  - by rewrite !PyFacts.sorted_perm, Hp.
Qed.

Lemma ranking_counts_perm (vs1 vs2 : list (token * Z)) :
  vs1 ≡ₚ vs2 → (ranking maxWords vs1).*2 = (ranking maxWords vs2).*2.
Proof.
  intros Hp. unfold ranking. by rewrite !slice_to_fmap, (sorted_counts_perm vs1 vs2).
Qed.

Lemma ranking_untied_perm (vs1 vs2 : list (token * Z)) :
  vs1 ≡ₚ vs2 →
  (∀ x y, x ∈ vs1 → y ∈ vs1 → x.2 = y.2 → x = y) →
  ranking maxWords vs1 = ranking maxWords vs2.
Proof.
  intros Hp Hinj. unfold ranking. f_equal.
  apply (StronglySorted_unique_strong count_desc).
  - intros x y Hx Hy Hxy Hyx. apply Hinj.
    + by rewrite PyFacts.sorted_perm in Hx.
    + by rewrite PyFacts.sorted_perm, <- Hp in Hy.
    + unfold count_desc in *. lia.
  - apply sorted_count_desc.
  - apply sorted_count_desc.
  - by rewrite !PyFacts.sorted_perm.
Qed.

Lemma selector_stage (gs : list (category * list (token * Z))) :
  MR.run_stage (reducer_sort maxWords) gs
  = MR.ungroup ((λ g, (g.1, ranking maxWords g.2)) <$> gs).
Proof.
  unfold MR.run_stage, MR.ungroup. induction gs as [|g gs IH]; [done|].
  by rewrite fmap_cons, !bind_cons, IH, reducer_sort_unfold.
Qed.

Lemma ranking_nil : ranking maxWords [] = [].
Proof.
  unfold ranking, Py.slice_to. destruct maxWords as [n|]; [|done].
  destruct (0 <=? n)%Z; apply take_nil.
Qed.

(** What a run puts out under a category is the ranking of the values
    that round 1 has put out under it, in their order of arrival. *)
Lemma output_of_category (c : bool) (files : list (list row)) (ρ : run) (g : category) :
  valid_run preprocess_text maxWords c files ρ →
  ∃ vs, vs ≡ₚ MR.values_of g (round1 ρ) ∧
        MR.values_of g (output ρ) = ranking maxWords vs.
Proof.
  intros [_ Hg Ho]. rewrite Ho, selector_stage.
  assert (Hk : ((λ g, (g.1, ranking maxWords g.2)) <$> groups2 ρ).*1 = (groups2 ρ).*1).
  { rewrite <- list_fmap_compose. done. }
  destruct (decide (g ∈ (groups2 ρ).*1)) as [Hin|Hout].
  - apply list_elem_of_fmap in Hin as ([g' vs] & -> & Hin). exists vs. split.
    + by eapply MRFacts.shuffles_values.
    + apply MRFacts.values_of_ungroup.
      * rewrite Hk. apply Hg.
      * apply list_elem_of_fmap. by exists (g', vs).
  - exists []. split.
    + rewrite MRFacts.values_of_absent; [done|].
      by rewrite <- (MRFacts.shuffles_keys _ _ g Hg).
    + rewrite MRFacts.values_of_ungroup_absent by by rewrite Hk.
      by rewrite ranking_nil.
Qed.

Lemma round1_of_perm (ks ks' : list key1) (es : list emission) :
  ks ≡ₚ ks' → round1_of ks es ≡ₚ round1_of ks' es.
Proof. intros Hp. unfold round1_of. by rewrite Hp. Qed.

(** Two runs on the same files differ in round 1 by the order only. *)
Lemma round1_runs_perm (c1 c2 : bool) (files : list (list row)) (ρ1 ρ2 : run) :
  round1_run preprocess_text c1 files ρ1 →
  round1_run preprocess_text c2 files ρ2 →
  round1 ρ1 ≡ₚ round1 ρ2.
Proof.
  intros H1 H2.
  destruct (round1_run_elim _ _ _ _ H1) as (Hnd1 & Hks1 & ->).
  destruct (round1_run_elim _ _ _ _ H2) as (Hnd2 & Hks2 & ->).
  assert (Hm : mapped ρ1 = mapped ρ2).
  { pose proof (run_mapped _ _ _ _ H1) as E1.
    pose proof (run_mapped _ _ _ _ H2) as E2. congruence. }
  rewrite <- Hm in *. apply round1_of_perm, NoDup_Permutation; [done..|].
  intros k. by rewrite Hks1, Hks2.
Qed.

(** The Global Aggregator's guarantee: a word comes out of round 1 under a
    category with the number of times the rows put it there. *)
Lemma round1_entry (c : bool) (files : list (list row)) (ρ : run)
    (g : category) (w : token) (n : Z) :
  round1_run preprocess_text c files ρ →
  (w, n) ∈ MR.values_of g (round1 ρ) →
  n = Z.of_nat (global_count preprocess_text (concat files) w g) ∧
  0 < global_count preprocess_text (concat files) w g.
Proof.
  intros Hρ Hin.
  destruct (round1_run_elim _ _ _ _ Hρ) as (Hnd & Hks & Hr).
  rewrite Hr, values_of_round1_of in Hin.
  apply list_elem_of_fmap in Hin as ([w' g'] & [= -> ->] & Hin).
  apply list_elem_of_filter in Hin as [Hg Hin]. simpl in Hg. subst g'.
  rewrite (mapped_inv preprocess_text files (mapped ρ)) in * by apply Hρ.
  rewrite total_for_ones by apply all_emissions_ones.
  rewrite all_emissions_of_key. split; [done|].
  rewrite <- all_emissions_of_key.
  apply Hks, MRFacts.values_of_present in Hin.
  unfold MR.values_of in Hin.
  fold (of_key (w', g) (all_emissions preprocess_text (concat files))) in Hin.
  destruct (of_key _ _) as [|e es]; [done|simpl; lia].
Qed.
End Ranking.

(** C9: two runs of the job on the same input files put out, under every
    category, rankings with the same counts at the same ranks; the rankings
    themselves are equal when no two words of the category tie, and the whole
    outputs are equal when the values arrive at the selector in the same
    groups and order. *)
Theorem runs_agree_up_to_ties
    (preprocess_text : cell → result string) (maxWords : option Z)
    (c1 c2 : bool) (files : list (list row)) (ρ1 ρ2 : run) :
  valid_run preprocess_text maxWords c1 files ρ1 →
  valid_run preprocess_text maxWords c2 files ρ2 →
  (groups2 ρ1 = groups2 ρ2 → output ρ1 = output ρ2) ∧
  ∀ g,
    (MR.values_of g (output ρ1)).*2 = (MR.values_of g (output ρ2)).*2 ∧
    (untied preprocess_text (concat files) g →
     MR.values_of g (output ρ1) = MR.values_of g (output ρ2)).
Proof.
  intros H1 H2. split.
  - intros Hg. rewrite (run_output _ _ _ _ _ H1), (run_output _ _ _ _ _ H2).
    by rewrite Hg.
  - intros g.
    destruct (output_of_category _ _ _ _ _ g H1) as (vs1 & Hp1 & ->).
    destruct (output_of_category _ _ _ _ _ g H2) as (vs2 & Hp2 & ->).
    assert (Hp : vs1 ≡ₚ vs2).
    { rewrite Hp1, Hp2.
      by rewrite (round1_runs_perm _ _ _ _ _ _ (run_first _ _ _ _ _ H1)
                    (run_first _ _ _ _ _ H2)). }
    split; [by apply ranking_counts_perm|].
    intros Hu. apply ranking_untied_perm; [done|].
    intros [w n] [w' n'] Hx Hy Hn. simpl in Hn. subst n'.
    rewrite Hp1 in Hx, Hy.
    destruct (round1_entry _ _ _ _ _ _ _ (run_first _ _ _ _ _ H1) Hx) as [Hn Hpos].
    destruct (round1_entry _ _ _ _ _ _ _ (run_first _ _ _ _ _ H1) Hy) as [Hn' _].
    f_equal. apply Hu; [done|lia].
Qed.

Lemma first_run_valid : valid_run keep_text (Some 2%Z) true two_files first_run.
Proof. apply exec_run_valid. reflexivity. Defined.

Lemma second_run_valid : valid_run keep_text (Some 2%Z) false two_files second_run.
Proof.
  split; [split|..]; simpl; try reflexivity.
  - apply MRFacts.shuffles_check. reflexivity.
  - apply MRFacts.shuffles_check. reflexivity.
Defined.

Lemma runs_agree_up_to_ties_witness :
  valid_run keep_text (Some 2%Z) true two_files first_run ∧
  valid_run keep_text (Some 2%Z) false two_files second_run ∧
  (groups2 first_run = groups2 second_run → output first_run = output second_run) ∧
  ∀ g,
    (MR.values_of g (output first_run)).*2 = (MR.values_of g (output second_run)).*2 ∧
    (untied keep_text (concat two_files) g →
     MR.values_of g (output first_run) = MR.values_of g (output second_run)).
Proof.
  split; [exact first_run_valid|]. split; [exact second_run_valid|].
  apply (runs_agree_up_to_ties keep_text (Some 2%Z) true false two_files
           first_run second_run first_run_valid second_run_valid).
Defined.

(** The two runs rank the same counts but break the tie among the words of
    count 1 differently. *)
Example tie_break_follows_arrival :
  MR.values_of "Action" (output first_run) = [("dark", 2%Z); ("knight", 1%Z)] ∧
  MR.values_of "Action" (output second_run) = [("dark", 2%Z); ("water", 1%Z)].
Proof. split; reflexivity. Qed.

(** The scenario of the specification: K = 2 on the two movies. *)
Example scenario_two_movies :
  run_job keep_text (Some 2%Z) true [two_movies]
  = Ok [("Action", ("dark", 2%Z)); ("Action", ("knight", 1%Z));
        ("Drama", ("dark", 1%Z)); ("Drama", ("water", 1%Z))].
Proof. reflexivity. Qed.


(** * Further properties of the stages *)

(** ** Splitting the fields of a row *)

Section Strings.

Lemma append_cons (c : ascii) (s t : string) : String c s +:+ t = String c (s +:+ t).
Proof. reflexivity. Qed.

Lemma append_nil_r (s : string) : s +:+ "" = s.
Proof. induction s as [|c s IH]; [done|]. by rewrite append_cons, IH. Qed.

Lemma append_assoc (a b c : string) : (a +:+ b) +:+ c = a +:+ (b +:+ c).
Proof. induction a as [|x a IH]; [done|]. by rewrite !append_cons, IH. Qed.

Lemma chars_append (a b : string) : chars (a +:+ b) = chars a ++ chars b.
Proof.
  induction a as [|x a IH]; [done|].
  rewrite append_cons. unfold chars in *. simpl. by rewrite IH.
Qed.

Lemma append_snoc (cur : string) (c : ascii) (s : string) :
  (cur +:+ String c "") +:+ s = cur +:+ String c s.
Proof. by rewrite append_assoc. Qed.

Lemma join_sep_cons (sep : ascii) (p q : string) (rest : list string) :
  join_sep sep (p :: q :: rest) = p +:+ String sep (join_sep sep (q :: rest)).
Proof. reflexivity. Qed.

(** Joining the pieces gives the string back. *)
Lemma join_split_sep_from (sep : ascii) (cur s : string) :
  join_sep sep (Py.split_sep_from sep cur s) = cur +:+ s.
Proof.
  revert cur. induction s as [|c s IH]; intros cur; simpl.
  - by rewrite append_nil_r.
  - destruct (Ascii.eqb_spec c sep) as [->|Hne].
    + destruct (Py.split_sep_from sep "" s) as [|q rest] eqn:Hs.
      { by apply split_sep_from_nonempty in Hs. }
      rewrite join_sep_cons, <- Hs, IH. done.
    + by rewrite IH, append_snoc.
Qed.

Lemma split_sep_from_free (sep : ascii) (cur s : string) :
  sep ∉ chars cur →
  Forall (λ p, sep ∉ chars p) (Py.split_sep_from sep cur s).
Proof.
  revert cur. induction s as [|c s IH]; intros cur Hcur; simpl.
  - by constructor.
  - destruct (Ascii.eqb_spec c sep) as [->|Hne].
    + constructor; [done|]. apply IH. unfold chars. simpl. apply not_elem_of_nil.
    + apply IH. rewrite chars_append, elem_of_app. unfold chars at 2. simpl.
      rewrite list_elem_of_singleton. intros [?|?]; [done|congruence].
Qed.

Lemma split_sep_from_length (sep : ascii) (cur s : string) :
  length (Py.split_sep_from sep cur s) = S (occurrences sep (chars s)).
Proof.
  revert cur. induction s as [|c s IH]; intros cur; simpl; [done|].
  unfold occurrences, chars in *. simpl. rewrite filter_cons.
  destruct (Ascii.eqb_spec c sep) as [->|Hne].
  - rewrite decide_True by done. simpl. by rewrite IH.
  - rewrite decide_False by done. by rewrite IH.
Qed.

Lemma split_sep_from_skip (sep : ascii) (cur p s : string) :
  sep ∉ chars p →
  Py.split_sep_from sep cur (p +:+ s) = Py.split_sep_from sep (cur +:+ p) s.
Proof.
  revert cur. induction p as [|c p IH]; intros cur Hp; simpl.
  - by rewrite append_nil_r.
  - unfold chars in Hp. simpl in Hp. apply not_elem_of_cons in Hp as [Hc Hp].
    destruct (Ascii.eqb_spec c sep) as [->|_]; [done|].
    by rewrite IH, append_snoc.
Qed.

(** Splitting what was joined gives the pieces back. *)
Lemma split_join_sep (sep : ascii) (pieces : list string) :
  pieces ≠ [] → Forall (λ p, sep ∉ chars p) pieces →
  Py.split_sep sep (join_sep sep pieces) = pieces.
Proof.
  intros Hne Hfree. unfold Py.split_sep.
  induction Hfree as [|p rest Hp Hrest IH]; [done|].
  destruct rest as [|q rest].
  - simpl. rewrite <- (append_nil_r p) at 1.
    by rewrite split_sep_from_skip.
  - rewrite join_sep_cons, split_sep_from_skip by done. simpl.
    rewrite Ascii.eqb_refl. f_equal. by apply IH.
Qed.

Lemma length_append (a b : string) :
  String.length (a +:+ b) = String.length a + String.length b.
Proof.
  induction a as [|x a IH]; [done|]. rewrite append_cons. simpl. by rewrite IH.
Qed.

Lemma space_length_1 (a : ascii) (r : string) :
  Py.is_space a = true → Py.space_length (String a r) = 1.
Proof. intros Ha. destruct r as [|b [|c r]]; simpl; by rewrite Ha. Qed.

Lemma space_length_2 (a b : ascii) (r : string) :
  Py.is_space a = false → Py.is_space2 a b = true →
  Py.space_length (String a (String b r)) = 2.
Proof. intros Ha Hb. destruct r as [|c r]; simpl; by rewrite Ha, Hb. Qed.

Lemma space_length_3 (a b c : ascii) (r : string) :
  Py.is_space a = false → Py.is_space2 a b = false →
  Py.space_length (String a (String b (String c r)))
  = if Py.is_space3 a b c then 3 else 0.
Proof. intros Ha Hb. simpl. by rewrite Ha, Hb. Qed.

(** A whitespace character at the start of a string is still there when
    the string goes on. *)
Lemma space_length_app (t r : string) :
  Py.space_length t ≠ 0 → Py.space_length (t +:+ r) = Py.space_length t.
Proof.
  destruct t as [|a t]; [done|]. rewrite append_cons.
  destruct (Py.is_space a) eqn:Ha.
  { intros _. by rewrite !space_length_1. }
  destruct t as [|b t]; [simpl; by rewrite Ha|]. rewrite append_cons.
  destruct (Py.is_space2 a b) eqn:Hb.
  { intros _. by rewrite !space_length_2. }
  destruct t as [|c t]; [simpl; by rewrite Ha, Hb|]. rewrite append_cons.
  intros _. by rewrite !space_length_3.
Qed.

(** A string that starts with a whitespace character is that character
    followed by the rest. *)
Lemma space_length_split (s : string) (k : nat) :
  Py.space_length s = S k →
  ∃ w rest, s = w +:+ rest ∧ String.length w = S k ∧ Py.space_length w = S k.
Proof.
  destruct s as [|a s]; [done|].
  destruct (Py.is_space a) eqn:Ha.
  { rewrite space_length_1 by done. intros [= <-].
    exists (String a ""), s. simpl. by rewrite Ha. }
  destruct s as [|b s]; [simpl; by rewrite Ha|].
  destruct (Py.is_space2 a b) eqn:Hb.
  { rewrite space_length_2 by done. intros [= <-].
    exists (String a (String b "")), s. simpl. by rewrite Ha, Hb. }
  destruct s as [|c s]; [simpl; by rewrite Ha, Hb|].
  rewrite space_length_3 by done. destruct (Py.is_space3 a b c) eqn:Hc; [|done].
  intros [= <-]. exists (String a (String b (String c ""))), s.
  simpl. by rewrite Ha, Hb, Hc.
Qed.

Lemma split_ws_from_skip (w : string) (cur s : string) :
  Py.split_ws_from (String.length w) cur (w +:+ s) = Py.split_ws_from 0 cur s.
Proof. induction w as [|c w IH]; [done|]. rewrite append_cons. simpl. apply IH. Qed.

(** The two steps of the scan: over a whitespace character, which ends the
    word at hand, and over another byte, which goes into it. *)
Lemma split_ws_from_space (cur w s : string) :
  space_char w →
  Py.split_ws_from 0 cur (w +:+ s)
  = (if decide (cur = "") then [] else [cur]) ++ Py.split_ws_from 0 "" s.
Proof.
  intros [Hne Hw].
  assert (Hl : Py.space_length (w +:+ s) = String.length w).
  { rewrite space_length_app; [done|]. rewrite Hw. by destruct w. }
  destruct w as [|c w]; [done|]. rewrite append_cons in *.
  cbn [Py.split_ws_from]. rewrite Hl. cbn [String.length].
  rewrite split_ws_from_skip. by case_decide.
Qed.

Lemma split_ws_from_byte (cur : string) (c : ascii) (s : string) :
  Py.space_length (String c s) = 0 →
  Py.split_ws_from 0 cur (String c s) = Py.split_ws_from 0 (cur +:+ String c "") s.
Proof. intros Hc. cbn [Py.split_ws_from]. by rewrite Hc. Qed.

Lemma append_snoc_nonempty (cur : string) (c : ascii) : cur +:+ String c "" ≠ "".
Proof. by destruct cur. Qed.

Lemma split_ws_from_pending (skip : nat) (cur s : string) :
  cur ≠ "" → Py.split_ws_from skip cur s ≠ [].
Proof.
  revert skip cur. induction s as [|c s IH]; intros skip cur Hcur.
  - simpl. by rewrite decide_False.
  - cbn [Py.split_ws_from]. destruct skip as [|k]; [|by apply IH].
    destruct (Py.space_length (String c s)); [|by rewrite decide_False].
    apply IH, append_snoc_nonempty.
Qed.

Lemma spaces_in_snoc (cur : string) (c : ascii) (s : string) :
  spaces_in (cur +:+ String c "") s
  = spaces_in cur (String c s) || (0 <? Py.space_length (String c s))%nat.
Proof.
  induction cur as [|a cur IH].
  - simpl. by rewrite orb_false_r.
  - rewrite append_cons. cbn [spaces_in]. rewrite IH, <- append_cons, append_snoc.
    by rewrite orb_assoc.
Qed.

Lemma spaces_in_end (cur s : string) :
  spaces_in cur s = false → has_space cur = false.
Proof.
  unfold has_space. induction cur as [|a cur IH]; [done|].
  cbn [spaces_in]. rewrite !orb_false_iff, !Nat.ltb_ge.
  intros [Ha Hcur]. split; [|by apply IH].
  rewrite append_nil_r.
  destruct (decide (Py.space_length (String a cur) = 0)) as [->|Hne]; [done|].
  rewrite space_length_app in Ha by done. lia.
Qed.

Lemma split_ws_from_clean (skip : nat) (cur s : string) :
  cur = "" ∨ (skip = 0 ∧ spaces_in cur s = false) →
  Forall clean_word (Py.split_ws_from skip cur s).
Proof.
  revert skip cur. induction s as [|c s IH]; intros skip cur Hcur.
  - simpl. case_decide as He; [constructor|].
    destruct Hcur as [?|[_ Hcur]]; [done|].
    repeat constructor; [done|]. by eapply spaces_in_end.
  - cbn [Py.split_ws_from]. destruct skip as [|k].
    + destruct (Py.space_length (String c s)) as [|k] eqn:Hc.
      * apply IH. right. split; [done|].
        rewrite spaces_in_snoc, Hc, orb_false_r.
        destruct Hcur as [->|[_ Hcur]]; done.
      * case_decide as He; [apply IH; by left|].
        destruct Hcur as [?|[_ Hcur]]; [done|].
        constructor; [|apply IH; by left].
        split; [done|]. by eapply spaces_in_end.
    + apply IH. destruct Hcur as [?|[? _]]; [by left|done].
Qed.

Lemma split_ws_blank (ws : list string) :
  Forall space_char ws → Py.split_ws (foldr String.append "" ws) = [].
Proof.
  unfold Py.split_ws. induction 1 as [|w ws Hw _ IH]; [done|].
  simpl. by rewrite split_ws_from_space, IH.
Qed.

Lemma split_ws_nil (s : string) : Py.split_ws s = [] ↔ blank s.
Proof.
  split; [|intros (ws & Hws & ->); by apply split_ws_blank].
  unfold Py.split_ws.
  remember (String.length s) as n eqn:Hn. revert s Hn.
  induction n as [n IH] using lt_wf_ind. intros s -> Hs.
  destruct s as [|c s]; [by exists []|].
  destruct (Py.space_length (String c s)) as [|k] eqn:Hc.
  - rewrite split_ws_from_byte in Hs by done.
    by apply split_ws_from_pending in Hs.
  - destruct (space_length_split _ _ Hc) as (w & rest & Heq & Hlen & Hw).
    rewrite Heq in Hs |- *.
    assert (Hsp : space_char w).
    { split; [by destruct w|]. by rewrite Hw, Hlen. }
    rewrite split_ws_from_space in Hs by done. simpl in Hs.
    assert (Hlt : String.length rest < String.length (String c s)).
    { rewrite Heq, length_append. lia. }
    destruct (IH _ Hlt rest eq_refl Hs) as (ws & Hws & ->).
    exists (w :: ws). split; [by constructor|done].
Qed.

(** The split at whitespace of more than one byte. *)
Example split_ws_beyond_ascii :
  Py.split_ws (" dark" +:+ nbsp +:+ "water" +:+ ideographic_space) = ["dark"; "water"] ∧
  Py.split_ws (nbsp +:+ ideographic_space) = [] ∧
  blank (nbsp +:+ ideographic_space) ∧
  has_space ("dark" +:+ nbsp +:+ "water") = true.
Proof.
  split; [reflexivity|]. split; [reflexivity|]. split; [|reflexivity].
  by apply split_ws_nil.
Qed.

End Strings.

(** ** The Emitter, row by row *)

Section EmitterRows.
Variable preprocess_text : cell → result string.

Lemma row_genres_inv (data : row) (gs : list category) :
  row_genres data = Ok gs →
  ∃ s, getitem data "genres" = Ok (Str s) ∧ gs = Py.split_sep "|" s.
Proof.
  unfold row_genres. destruct (getitem data "genres") as [[s|]|e]; simpl; [|done..].
  intros [= <-]. by exists s.
Qed.

Lemma title_words_inv (data : row) (ws : list token) :
  title_words preprocess_text data = Ok ws →
  ∃ t clean, getitem data "title" = Ok t ∧ preprocess_text t = Ok clean ∧
             ws = Py.split_ws clean.
Proof.
  unfold title_words. destruct (getitem data "title") as [t|e]; simpl; [|done].
  destruct (preprocess_text t) as [clean|e] eqn:Hp; simpl; [|done].
  intros [= <-]. by exists t, clean.
Qed.

Lemma mapper_row_ok_inv (data : row) (es : list emission) :
  mapper_row preprocess_text data = Ok es →
  ∃ ws gs, title_words preprocess_text data = Ok ws ∧ row_genres data = Ok gs ∧
           es = emit ws gs.
Proof.
  unfold mapper_row. destruct (title_words preprocess_text data) as [ws|e]; [|done].
  destruct (row_genres data) as [gs|e]; [|done].
  intros [= <-]. by exists ws, gs.
Qed.

Lemma elem_of_emit (e : emission) (ws : list token) (gs : list category) :
  e ∈ emit ws gs ↔ e.1.1 ∈ ws ∧ e.1.2 ∈ gs ∧ e.2 = 1%Z.
Proof.
  induction gs as [|g gs IH].
  - rewrite emit_nil_genres, !elem_of_nil. tauto.
  - rewrite emit_cons, elem_of_app, IH, list_elem_of_fmap, elem_of_cons.
    destruct e as [[w g'] n]. simpl. split.
    + intros [(w' & [= -> -> ->] & Hw)|(? & ? & ?)]; tauto.
    + intros (Hw & [->|Hg] & ->); [left; by exists w|right; tauto].
Qed.

Lemma traverse_app {A B} (f : A → result B) (l1 l2 : list A) :
  traverse f (l1 ++ l2)
  = (b1 ← traverse f l1; b2 ← traverse f l2; Ok (b1 ++ b2)).
Proof.
  induction l1 as [|a l1 IH]; simpl.
  - by destruct (traverse f l2).
  - destruct (f a) as [b|e]; [|done]. simpl. rewrite IH.
    destruct (traverse f l1) as [b1|e]; [|done]. simpl.
    by destruct (traverse f l2).
Qed.

Lemma traverse_first_error {A B} (f : A → result B) (good : list A) (bad : A)
    (rest : list A) (e : exn) :
  Forall (λ a, ∃ b, f a = Ok b) good → f bad = Raise e →
  traverse f (good ++ bad :: rest) = Raise e.
Proof.
  intros Hgood Hbad. induction Hgood as [|a good [b Ha] _ IH]; simpl.
  - by rewrite Hbad.
  - by rewrite Ha, IH.
Qed.

End EmitterRows.

(** X1: the genres of a row are the pieces of its genres field between the
    "|" separators: they are never none, never contain "|", and joined by
    "|" they give the field back; any list of such labels is read back as
    it is.  A field with n separators has n + 1 labels. *)
Theorem row_genres_round_trip (data : row) (gs : list category) :
  (row_genres data = Ok gs ↔
   gs ≠ [] ∧ Forall (λ g, "|"%char ∉ chars g) gs ∧
   getitem data "genres" = Ok (Str (join_sep "|" gs))) ∧
  (row_genres data = Ok gs →
   length gs = S (occurrences "|"%char (chars (join_sep "|" gs)))).
Proof.
  assert (Hinv : row_genres data = Ok gs →
    gs ≠ [] ∧ Forall (λ g, "|"%char ∉ chars g) gs ∧
    getitem data "genres" = Ok (Str (join_sep "|" gs)) ∧
    length gs = S (occurrences "|"%char (chars (join_sep "|" gs)))).
  { intros Hg. apply row_genres_inv in Hg as (s & Hs & ->).
    unfold Py.split_sep. rewrite join_split_sep_from. simpl.
    split; [apply split_sep_from_nonempty|].
    split; [apply split_sep_from_free, not_elem_of_nil|].
    split; [done|apply split_sep_from_length]. }
  split; [split|]; [tauto| |tauto].
  intros (Hne & Hfree & Hs). unfold row_genres. rewrite Hs. simpl.
  by rewrite split_join_sep.
Qed.

(** X2: every emission of a row carries a word that is not empty and has no
    whitespace in it, and a genre without "|". *)
Theorem mapper_row_emissions_clean
    (preprocess_text : cell → result string) (data : row) (es : list emission) :
  mapper_row preprocess_text data = Ok es →
  Forall (λ e, clean_word e.1.1 ∧ "|"%char ∉ chars e.1.2) es.
Proof.
  intros Hes. apply mapper_row_ok_inv in Hes as (ws & gs & Hw & Hg & ->).
  apply title_words_inv in Hw as (t & clean & _ & _ & ->).
  apply row_genres_inv in Hg as (s & _ & ->).
  apply Forall_forall. intros e He. apply elem_of_emit in He as (Hw & Hg & _).
  assert (Hws : Forall clean_word (Py.split_ws clean)).
  { apply split_ws_from_clean. by left. }
  assert (Hgs : Forall (λ p, "|"%char ∉ chars p) (Py.split_sep "|" s)).
  { apply split_sep_from_free, not_elem_of_nil. }
  rewrite Forall_forall in Hws, Hgs. split; [by apply Hws|by apply Hgs].
Qed.

Lemma mapper_row_emissions_clean_witness :
  mapper_row keep_text (movie (" dark" +:+ nbsp +:+ "water ") "Action|Drama")
  = Ok [(("dark", "Action"), 1%Z); (("water", "Action"), 1%Z);
        (("dark", "Drama"), 1%Z); (("water", "Drama"), 1%Z)] ∧
  Forall (λ e : emission, clean_word e.1.1 ∧ "|"%char ∉ chars e.1.2)
    [(("dark", "Action"), 1%Z); (("water", "Action"), 1%Z);
     (("dark", "Drama"), 1%Z); (("water", "Drama"), 1%Z)].
Proof.
  split; [reflexivity|].
  apply (mapper_row_emissions_clean keep_text
           (movie (" dark" +:+ nbsp +:+ "water ") "Action|Drama")).
  reflexivity.
Defined.

(** X3: the Emitter accepts a row and emits nothing for it exactly when the
    row has a title that the preprocessing turns into a blank text and a
    genres field that is a string. *)
Theorem mapper_row_emits_nothing
    (preprocess_text : cell → result string) (data : row) :
  mapper_row preprocess_text data = Ok [] ↔
  ∃ t clean s,
    getitem data "title" = Ok t ∧ preprocess_text t = Ok clean ∧ blank clean ∧
    getitem data "genres" = Ok (Str s).
Proof.
  split.
  - intros Hes. apply mapper_row_ok_inv in Hes as (ws & gs & Hw & Hg & He).
    apply title_words_inv in Hw as (t & clean & Ht & Hc & ->).
    apply row_genres_inv in Hg as (s & Hs & ->).
    exists t, clean, s. split; [done|]. split; [done|]. split; [|done].
    apply split_ws_nil, length_zero_iff_nil.
    assert (Hlen : length (emit (Py.split_ws clean) (Py.split_sep "|" s)) = 0)
      by by rewrite <- He.
    rewrite emit_length in Hlen.
    pose proof (split_sep_from_length "|" "" s) as Hn.
    unfold Py.split_sep in Hlen. lia.
  - intros (t & clean & s & Ht & Hc & Hb & Hs).
    unfold mapper_row, title_words, row_genres. rewrite Ht, Hs. simpl.
    rewrite Hc. simpl. apply split_ws_nil in Hb. rewrite Hb.
    by rewrite emit_nil_words.
Qed.

(** X4: reading a frame in two parts gives the emissions of the first part
    followed by those of the second, and the error of the first part, if
    any, before that of the second. *)
Theorem mapper_csv_app
    (preprocess_text : cell → result string) (df1 df2 : list row) :
  mapper_csv preprocess_text (df1 ++ df2)
  = (es1 ← mapper_csv preprocess_text df1;
     es2 ← mapper_csv preprocess_text df2;
     Ok (es1 ++ es2)).
Proof.
  unfold mapper_csv. rewrite traverse_app.
  destruct (traverse (mapper_row preprocess_text) df1) as [p1|e]; [|done]. simpl.
  destruct (traverse (mapper_row preprocess_text) df2) as [p2|e]; [|done]. simpl.
  by rewrite concat_app.
Qed.

(** X5: the mapper raises the error of the first row that the Emitter
    rejects, whatever comes after it; nothing of the frame is emitted. *)
Theorem mapper_csv_first_error
    (preprocess_text : cell → result string)
    (good : list row) (bad : row) (rest : list row) (e : exn) :
  Forall (λ r, ∃ es, mapper_row preprocess_text r = Ok es) good →
  mapper_row preprocess_text bad = Raise e →
  mapper_csv preprocess_text (good ++ bad :: rest) = Raise e.
Proof.
  intros Hgood Hbad. unfold mapper_csv.
  by rewrite (traverse_first_error _ good bad rest e).
Qed.

Lemma mapper_csv_first_error_witness :
  Forall (λ r, ∃ es, mapper_row keep_text r = Ok es) [movie "dark water" "Action"] ∧
  mapper_row keep_text [("title", Str "up")] = Raise (KeyError "genres") ∧
  mapper_csv keep_text
    ([movie "dark water" "Action"] ++ [("title", Str "up")] :: [[("genres", Str "Drama")]])
  = Raise (KeyError "genres").
Proof.
  assert (Hgood : Forall (λ r, ∃ es, mapper_row keep_text r = Ok es)
                    [movie "dark water" "Action"]).
  { constructor; [|constructor]. eexists. reflexivity. }
  split; [exact Hgood|]. split; [reflexivity|].
  apply (mapper_csv_first_error keep_text [movie "dark water" "Action"]
           [("title", Str "up")] [[("genres", Str "Drama")]] (KeyError "genres"));
    [exact Hgood|reflexivity].
Defined.

(** X6: the mapper accepts a frame exactly when the Emitter accepts every
    row of it, and it then yields the emissions of the rows in their
    order. *)
Theorem mapper_csv_ok_iff
    (preprocess_text : cell → result string) (df : list row) (es : list emission) :
  mapper_csv preprocess_text df = Ok es ↔
  Forall (λ r, ∃ es', mapper_row preprocess_text r = Ok es') df ∧
  es = all_emissions preprocess_text df.
Proof.
  split.
  - intros Hes. split; [|by apply mapper_csv_inv].
    unfold mapper_csv in Hes.
    destruct (traverse (mapper_row preprocess_text) df) as [per_row|e] eqn:Ht; [|done].
    apply traverse_ok in Ht. clear Hes.
    induction Ht as [|r es' df per_row Hr _ IH]; constructor; eauto.
  - intros [Hall ->]. unfold mapper_csv.
    assert (Ht : traverse (mapper_row preprocess_text) df
                 = Ok (row_emissions preprocess_text <$> df)).
    { apply traverse_ok. induction Hall as [|r df [es' Hr] _ IH]; [constructor|].
      rewrite fmap_cons. constructor; [|done].
      by rewrite Hr, (mapper_row_inv _ _ _ Hr). }
    rewrite Ht. simpl. f_equal. unfold all_emissions.
    clear. induction df as [|r df IH]; [done|].
    by rewrite fmap_cons, bind_cons, <- IH.
Qed.

(** ** The Local Aggregator on a task's output *)

Section Combiner.

Lemma elem_of_values_of {K V} `{EqDecision K} (k : K) (v : V) (kvs : list (K * V)) :
  v ∈ MR.values_of k kvs ↔ (k, v) ∈ kvs.
Proof.
  unfold MR.values_of. rewrite list_elem_of_fmap. split.
  - intros ([k' v'] & -> & Hin). apply list_elem_of_filter in Hin as [Hk Hin].
    simpl in *. by subst k'.
  - intros Hin. exists (k, v). split; [done|]. by apply list_elem_of_filter.
Qed.

Lemma combiner_stage_fmap (gs : list (key1 * list Z)) :
  MR.run_stage combiner_sum gs = (λ g, (g.1, Py.sum g.2)) <$> gs.
Proof.
  induction gs as [|g gs IH]; [done|].
  by rewrite combiner_stage_cons, fmap_cons, IH.
Qed.

Lemma ungroup_length {K V} (gs : list (K * list V)) :
  Forall (λ g, g.2 ≠ []) gs → (length gs ≤ length (MR.ungroup gs))%nat.
Proof.
  induction 1 as [|[k vs] gs Hvs _ IH]; [done|].
  unfold MR.ungroup in *. rewrite bind_cons, length_app, length_fmap. simpl in *.
  destruct vs; [done|]. simpl. lia.
Qed.

Lemma values_of_at_most_one {K V} `{EqDecision K} (k : K) (kvs : list (K * V)) :
  NoDup kvs.*1 → (length (MR.values_of k kvs) ≤ 1)%nat.
Proof.
  induction kvs as [|[k' v] kvs IH]; intros Hnd; [simpl; lia|].
  rewrite fmap_cons in Hnd. apply NoDup_cons in Hnd as [Hk Hnd]. simpl in Hk.
  rewrite MRFacts.values_of_cons. simpl. case_decide as Heq; [|by apply IH].
  subst k'. rewrite MRFacts.values_of_absent by done. simpl. lia.
Qed.

Lemma combiner_stage_singletons (gs : list (key1 * list Z)) :
  Forall (λ g, ∃ v, g.2 = [v]) gs →
  MR.run_stage combiner_sum gs = MR.ungroup gs.
Proof.
  induction 1 as [|[k vs] gs [v Hv] _ IH]; [done|].
  rewrite combiner_stage_cons, MRFacts.ungroup_cons, IH. simpl in *. subst vs.
  by rewrite PyFacts.sum_cons, PyFacts.sum_nil, Z.add_0_r.
Qed.

End Combiner.

(** X7: on a task's output the combiner yields one pair per distinct key of
    that output, valued with the sum of the counts of the key; on what a
    mapper emits (counts of 1) this is the number of emissions of the key.
    It never yields more pairs than it received. *)
Theorem combiner_output (m c : list emission) :
  combined m c →
  NoDup c.*1 ∧
  (∀ k, k ∈ c.*1 ↔ k ∈ m.*1) ∧
  (∀ k n, (k, n) ∈ c → n = total_for k m) ∧
  (Forall (λ e, e.2 = 1%Z) m →
   ∀ k n, (k, n) ∈ c → n = Z.of_nat (length (of_key k m))) ∧
  (length c ≤ length m)%nat.
Proof.
  intros Hc.
  assert (Hkeys : ∀ k, k ∈ c.*1 ↔ k ∈ m.*1) by (intros k; by apply combined_keys).
  assert (Htot : ∀ k n, (k, n) ∈ c → n = total_for k m).
  { intros k n Hin. rewrite <- (combined_total k m c Hc).
    destruct Hc as (gs & Hs & ->).
    assert (Hnd : NoDup (MR.run_stage combiner_sum gs).*1).
    { rewrite combiner_stage_keys. apply Hs. }
    apply elem_of_values_of in Hin.
    pose proof (values_of_at_most_one k _ Hnd) as Hlen.
    unfold total_for.
    destruct (MR.values_of k (MR.run_stage combiner_sum gs)) as [|n' [|]];
      simpl in Hlen; [by apply elem_of_nil in Hin| |lia].
    apply list_elem_of_singleton in Hin as ->.
    by rewrite PyFacts.sum_cons, PyFacts.sum_nil, Z.add_0_r. }
  destruct Hc as (gs & Hs & ->).
  split; [rewrite combiner_stage_keys; apply Hs|].
  split; [done|]. split; [done|]. split.
  - intros Hones k n Hin. rewrite (Htot k n Hin). by apply total_for_ones.
  - rewrite combiner_stage_fmap, length_fmap, <- (MR.shuffle_perm _ _ Hs).
    apply ungroup_length, Hs.
Qed.

Lemma combiner_output_witness :
  combined
    [(("dark", "Action"), 1%Z); (("water", "Action"), 1%Z); (("dark", "Action"), 1%Z)]
    [(("water", "Action"), 1%Z); (("dark", "Action"), 2%Z)] ∧
  (length [(("water", "Action"), 1%Z); (("dark", "Action"), 2%Z)]
   ≤ length [(("dark", "Action"), 1%Z); (("water", "Action"), 1%Z);
             (("dark", "Action"), 1%Z)])%nat.
Proof.
  assert (Hc : combined
    [(("dark", "Action"), 1%Z); (("water", "Action"), 1%Z); (("dark", "Action"), 1%Z)]
    [(("water", "Action"), 1%Z); (("dark", "Action"), 2%Z)]).
  { exists [(("water", "Action"), [1%Z]); (("dark", "Action"), [1%Z; 1%Z])].
    split; [|reflexivity]. apply MRFacts.shuffles_check. reflexivity. }
  split; [exact Hc|].
  apply (combiner_output _ _ Hc).
Defined.

(** X8: running the combiner on its own output changes nothing but the
    order of the pairs. *)
Theorem combiner_again (m c c' : list emission) :
  combined m c → combined c c' → c' ≡ₚ c.
Proof.
  intros (gs & Hs & ->) (gs' & Hs' & ->).
  assert (Hnd : NoDup (MR.run_stage combiner_sum gs).*1).
  { rewrite combiner_stage_keys. apply Hs. }
  rewrite combiner_stage_singletons; [apply Hs'|].
  apply Forall_forall. intros [k vs] Hin.
  pose proof (MRFacts.shuffles_values _ _ k vs Hs' Hin) as Hp.
  pose proof (values_of_at_most_one k _ Hnd) as Hlen.
  rewrite <- Hp in Hlen.
  pose proof (MR.shuffle_nonempty _ _ Hs') as Hne.
  rewrite Forall_forall in Hne. specialize (Hne _ Hin). simpl in *.
  destruct vs as [|v [|]]; [done| |simpl in Hlen; lia]. by exists v.
Qed.

Lemma combiner_again_witness :
  combined
    [(("dark", "Action"), 1%Z); (("water", "Action"), 1%Z); (("dark", "Action"), 1%Z)]
    [(("water", "Action"), 1%Z); (("dark", "Action"), 2%Z)] ∧
  combined
    [(("water", "Action"), 1%Z); (("dark", "Action"), 2%Z)]
    [(("dark", "Action"), 2%Z); (("water", "Action"), 1%Z)] ∧
  [(("dark", "Action"), 2%Z); (("water", "Action"), 1%Z)]
  ≡ₚ [(("water", "Action"), 1%Z); (("dark", "Action"), 2%Z)].
Proof.
  assert (H1 : combined
    [(("dark", "Action"), 1%Z); (("water", "Action"), 1%Z); (("dark", "Action"), 1%Z)]
    [(("water", "Action"), 1%Z); (("dark", "Action"), 2%Z)]).
  { exists [(("water", "Action"), [1%Z]); (("dark", "Action"), [1%Z; 1%Z])].
    split; [|reflexivity]. apply MRFacts.shuffles_check. reflexivity. }
  assert (H2 : combined
    [(("water", "Action"), 1%Z); (("dark", "Action"), 2%Z)]
    [(("dark", "Action"), 2%Z); (("water", "Action"), 1%Z)]).
  { exists [(("dark", "Action"), [2%Z]); (("water", "Action"), [1%Z])].
    split; [|reflexivity]. apply MRFacts.shuffles_check. reflexivity. }
  split; [exact H1|]. split; [exact H2|].
  exact (combiner_again _ _ _ H1 H2).
Defined.

(** ** The Top-K Selector: ties and limits *)

Section Selector.

Lemma slice_to_take {A} (l : list A) (stop : option Z) :
  ∃ n, Py.slice_to l stop = take n l.
Proof.
  destruct stop as [k|]; simpl.
  - destruct (0 <=? k)%Z; eauto.
  - exists (length l). by rewrite firstn_all.
Qed.

Lemma filter_prefix {A} (P : A → Prop) `{∀ x, Decision (P x)} (l1 l2 : list A) :
  l1 `prefix_of` l2 → filter P l1 `prefix_of` filter P l2.
Proof. intros [k ->]. rewrite filter_app. by apply prefix_app_r. Qed.

Lemma fmap_prefix {A B} (f : A → B) (l1 l2 : list A) :
  l1 `prefix_of` l2 → f <$> l1 `prefix_of` f <$> l2.
Proof. intros [k ->]. rewrite fmap_app. by apply prefix_app_r. Qed.

Lemma filter_pair {A B} (P : A * B → Prop) (Q : B → Prop)
    `{∀ x, Decision (P x)} `{∀ y, Decision (Q y)} (a : A) (l : list B) :
  (∀ y, P (a, y) ↔ Q y) →
  filter P (pair a <$> l) = pair a <$> filter Q l.
Proof.
  intros HPQ. induction l as [|y l IH]; [done|].
  rewrite fmap_cons, !filter_cons, IH.
  destruct (decide (P (a, y))) as [HP|HP], (decide (Q y)) as [HQ|HQ];
    try done; by apply HPQ in HP || apply HPQ in HQ.
Qed.

Lemma take_prefix_le {A} (l : list A) (n1 n2 : nat) :
  (n1 ≤ n2)%nat → take n1 l `prefix_of` take n2 l.
Proof.
  intros Hn. replace n1 with (n1 `min` n2) by lia.
  rewrite <- take_take. apply prefix_take.
Qed.

End Selector.

(** X9: among the pairs of one count the selector keeps the order in which
    they arrived: the emitted pairs of a count are the first of the received
    pairs of that count, and all of them when there is no limit. *)
Theorem reducer_sort_ties_keep_arrival_order
    (maxWords : option Z) (key : category) (values : list (token * Z)) (n : Z) :
  filter (λ x, x.2.2 = n) (reducer_sort maxWords key values)
    `prefix_of` (pair key <$> filter (λ v, v.2 = n) values) ∧
  filter (λ x, x.2.2 = n) (reducer_sort None key values)
  = pair key <$> filter (λ v, v.2 = n) values.
Proof.
  assert (Hall : filter (λ x : category * (token * Z), x.2.2 = n)
                   (pair key <$> Py.sorted values snd true)
                 = pair key <$> filter (λ v, v.2 = n) values).
  { rewrite (filter_pair _ (λ v : token * Z, v.2 = n)) by done.
    by rewrite (PyFacts.sorted_stable snd true n values). }
  split.
  - rewrite <- Hall, reducer_sort_unfold.
    destruct (slice_to_take (Py.sorted values snd true) maxWords) as [m ->].
    apply filter_prefix, fmap_prefix, prefix_take.
  - by rewrite reducer_sort_unfold.
Qed.

(** X10: a larger limit only extends the output: the output for K1 is the
    beginning of the output for K2 when 0 <= K1 <= K2 or K1 <= K2 < 0, and
    every output is the beginning of the output without limit. *)
Theorem reducer_sort_prefix
    (k1 k2 : Z) (key : category) (values : list (token * Z)) :
  (0 ≤ k1 ≤ k2 ∨ k1 ≤ k2 < 0)%Z →
  reducer_sort (Some k1) key values `prefix_of` reducer_sort (Some k2) key values ∧
  reducer_sort (Some k2) key values `prefix_of` reducer_sort None key values.
Proof.
  intros Hk. rewrite !reducer_sort_unfold. split.
  - apply fmap_prefix. destruct Hk as [Hk|Hk].
    + rewrite !PyFacts.slice_to_nonneg by lia. apply take_prefix_le. lia.
    + rewrite !PyFacts.slice_to_neg by lia. apply take_prefix_le. lia.
  - apply fmap_prefix.
    destruct (slice_to_take (Py.sorted values snd true) (Some k2)) as [m ->].
    apply prefix_take.
Qed.

Lemma reducer_sort_prefix_witness :
  (0 ≤ 1 ≤ 2 ∨ 1 ≤ 2 < 0)%Z ∧
  reducer_sort (Some 1%Z) "Action" [("knight", 1%Z); ("dark", 2%Z); ("rises", 1%Z)]
    `prefix_of`
  reducer_sort (Some 2%Z) "Action" [("knight", 1%Z); ("dark", 2%Z); ("rises", 1%Z)] ∧
  reducer_sort (Some 2%Z) "Action" [("knight", 1%Z); ("dark", 2%Z); ("rises", 1%Z)]
    `prefix_of`
  reducer_sort None "Action" [("knight", 1%Z); ("dark", 2%Z); ("rises", 1%Z)].
Proof.
  split; [lia|].
  apply (reducer_sort_prefix 1 2 "Action" [("knight", 1%Z); ("dark", 2%Z); ("rises", 1%Z)]).
  lia.
Defined.

(** ** The job from the rows to the ranked output *)

Section EndToEnd.
Variable preprocess_text : cell → result string.
Variable maxWords : option Z.

Lemma key_emitted (k : key1) (es : list emission) :
  k ∈ es.*1 ↔ 0 < length (of_key k es).
Proof.
  assert (Hv : length (of_key k es) = length (MR.values_of k es)).
  { unfold MR.values_of, of_key. by rewrite length_fmap. }
  rewrite Hv. split.
  - intros Hk. apply MRFacts.values_of_present in Hk.
    destruct (MR.values_of k es); [done|simpl; lia].
  - intros Hlen. destruct (decide (k ∈ es.*1)) as [|Hk]; [done|].
    rewrite MRFacts.values_of_absent in Hlen by done. simpl in Hlen. lia.
Qed.

Lemma elem_of_round1_of (g : category) (w : token) (n : Z)
    (ks : list key1) (es : list emission) :
  (g, (w, n)) ∈ round1_of ks es ↔ (w, g) ∈ ks ∧ n = total_for (w, g) es.
Proof.
  unfold round1_of. rewrite list_elem_of_fmap. split.
  - by intros ([w' g'] & [= -> -> ->] & Hin).
  - intros [Hin ->]. by exists (w, g).
Qed.

Lemma round1_of_keys (ks : list key1) (es : list emission) :
  (λ x : category * (token * Z), (x.2.1, x.1)) <$> round1_of ks es = ks.
Proof.
  unfold round1_of. induction ks as [|[w g] ks IH]; [done|].
  rewrite !fmap_cons. simpl. by f_equal.
Qed.

Lemma round1_run_counts (c : bool) (files : list (list row)) (ρ : run) :
  round1_run preprocess_text c files ρ →
  NoDup ((λ x : category * (token * Z), (x.2.1, x.1)) <$> round1 ρ) ∧
  ∀ g w n,
    (g, (w, n)) ∈ round1 ρ ↔
    0 < global_count preprocess_text (concat files) w g ∧
    n = Z.of_nat (global_count preprocess_text (concat files) w g).
Proof.
  intros Hρ. destruct (round1_run_elim _ _ _ _ Hρ) as (Hnd & Hks & ->).
  rewrite round1_of_keys. split; [done|].
  intros g w n. rewrite elem_of_round1_of, Hks.
  rewrite (mapped_inv preprocess_text files (mapped ρ)) by apply Hρ.
  rewrite key_emitted, total_for_ones by apply all_emissions_ones.
  by rewrite all_emissions_of_key.
Qed.

Lemma words_of_category_NoDup (g : category) (r1 : list (category * (token * Z))) :
  NoDup ((λ x : category * (token * Z), (x.2.1, x.1)) <$> r1) →
  NoDup (MR.values_of g r1).*1.
Proof.
  induction r1 as [|[g' [w n]] r1 IH]; intros Hnd; [constructor|].
  rewrite fmap_cons in Hnd. apply NoDup_cons in Hnd as [Hx Hnd]. simpl in Hx.
  rewrite MRFacts.values_of_cons. simpl. case_decide as Hg; [|by apply IH].
  subst g'. rewrite fmap_cons. apply NoDup_cons. split; [|by apply IH].
  simpl. intros Hin. apply Hx.
  apply list_elem_of_fmap in Hin as ([w' n'] & -> & Hin). simpl.
  apply (proj1 (elem_of_values_of g (w', n') r1)) in Hin.
  apply list_elem_of_fmap. by exists (g, (w', n')).
Qed.

(** Under a category a run puts out the beginning of a ranking of all the
    pairs that round 1 has put out under it. *)
Lemma output_split (c : bool) (files : list (list row)) (ρ : run) (g : category) :
  valid_run preprocess_text maxWords c files ρ →
  ∃ rest,
    MR.values_of g (output ρ) ++ rest ≡ₚ MR.values_of g (round1 ρ) ∧
    StronglySorted count_desc (MR.values_of g (output ρ) ++ rest).
Proof.
  intros Hρ. destruct (output_of_category _ _ _ _ _ g Hρ) as (vs & Hp & ->).
  unfold ranking.
  destruct (slice_to_take (Py.sorted vs snd true) maxWords) as [m ->].
  exists (drop m (Py.sorted vs snd true)). rewrite take_drop. split.
  - by rewrite PyFacts.sorted_perm.
  - apply sorted_count_desc.
Qed.

Lemma selector_stage_submseteq (gs : list (category * list (token * Z))) :
  MR.run_stage (reducer_sort maxWords) gs ⊆+ MR.ungroup gs.
Proof.
  unfold MR.run_stage, MR.ungroup. induction gs as [|[g vs] gs IH]; [done|].
  rewrite !bind_cons. apply submseteq_app; [|done]. simpl.
  rewrite reducer_sort_unfold. apply fmap_submseteq.
  destruct (slice_to_take (Py.sorted vs snd true) maxWords) as [m ->].
  rewrite <- (PyFacts.sorted_perm snd true vs) at 2. apply submseteq_take.
Qed.

Lemma selector_stage_no_limit (gs : list (category * list (token * Z))) :
  MR.run_stage (reducer_sort None) gs ≡ₚ MR.ungroup gs.
Proof.
  unfold MR.run_stage, MR.ungroup. induction gs as [|[g vs] gs IH]; [done|].
  rewrite !bind_cons, IH. simpl.
  by rewrite reducer_sort_unfold, PyFacts.slice_to_none, PyFacts.sorted_perm.
Qed.

Lemma category_emitted (g : category) (es : list emission) :
  0 < length (of_genre g es) ↔ ∃ w, 0 < length (of_key (w, g) es).
Proof.
  split.
  - intros Hlen. destruct (of_genre g es) as [|[[w g'] n] l] eqn:Hl; [simpl in Hlen; lia|].
    assert (Hin : ((w, g'), n) ∈ of_genre g es) by (rewrite Hl; by left).
    apply list_elem_of_filter in Hin as [Hg Hin]. simpl in Hg. subst g'.
    exists w. apply key_emitted, list_elem_of_fmap. by exists ((w, g), n).
  - intros [w Hw]. apply key_emitted, list_elem_of_fmap in Hw as ([[w' g'] n] & [= <- <-] & Hin).
    assert (Hg : ((w, g), n) ∈ of_genre g es) by by apply list_elem_of_filter.
    destruct (of_genre g es); [by apply elem_of_nil in Hg|simpl; lia].
Qed.

Lemma category_count_positive (rows : list row) (g : category) :
  0 < category_count preprocess_text rows g ↔
  ∃ w, 0 < global_count preprocess_text rows w g.
Proof.
  rewrite <- all_emissions_of_genre, category_emitted.
  by setoid_rewrite all_emissions_of_key.
Qed.

End EndToEnd.

(** X11: the Global Aggregator puts out one pair for every word and
    category that the rows put together at least once, and none else; the
    pair carries the number of times they do. *)
Theorem round1_true_counts
    (preprocess_text : cell → result string) (c : bool)
    (files : list (list row)) (r1 : list ranked) :
  step1 preprocess_text c files r1 →
  NoDup ((λ x : ranked, (x.2.1, x.1)) <$> r1) ∧
  ∀ g w n,
    (g, (w, n)) ∈ r1 ↔
    0 < global_count preprocess_text (concat files) w g ∧
    n = Z.of_nat (global_count preprocess_text (concat files) w g).
Proof.
  intros (ρ & Hρ & <-). by eapply round1_run_counts.
Qed.

Lemma round1_true_counts_witness :
  step1 keep_text true two_files two_files_round1 ∧
  NoDup ((λ x : ranked, (x.2.1, x.1)) <$> two_files_round1) ∧
  ∀ g w n,
    (g, (w, n)) ∈ two_files_round1 ↔
    0 < global_count keep_text (concat two_files) w g ∧
    n = Z.of_nat (global_count keep_text (concat two_files) w g).
Proof.
  assert (Hs : step1 keep_text true two_files two_files_round1).
  { apply (run_step1_sound keep_text None). reflexivity. }
  split; [exact Hs|].
  exact (round1_true_counts keep_text true two_files two_files_round1 Hs).
Defined.

(** X12: in the output of the job every pair carries the number of times
    the rows put its word under its category, which is at least one, and no
    word comes twice under a category. *)
Theorem job_output_true_counts
    (preprocess_text : cell → result string) (maxWords : option Z) (c : bool)
    (files : list (list row)) (ρ : run) :
  valid_run preprocess_text maxWords c files ρ →
  ∀ g,
    NoDup (MR.values_of g (output ρ)).*1 ∧
    ∀ w n, (g, (w, n)) ∈ output ρ →
           0 < global_count preprocess_text (concat files) w g ∧
           n = Z.of_nat (global_count preprocess_text (concat files) w g).
Proof.
  intros Hρ g.
  destruct (output_split _ _ _ _ _ g Hρ) as (rest & Hp & _).
  destruct (round1_run_counts _ _ _ _ (run_first _ _ _ _ _ Hρ)) as [Hnd Hcnt].
  split.
  - apply (words_of_category_NoDup g) in Hnd.
    rewrite <- Hp, fmap_app in Hnd. by apply NoDup_app in Hnd as [? _].
  - intros w n Hin. apply Hcnt.
    apply elem_of_values_of. rewrite <- Hp. apply elem_of_app. left.
    by apply elem_of_values_of.
Qed.

Lemma job_output_true_counts_witness :
  valid_run keep_text (Some 2%Z) true two_files first_run ∧
  ∀ g,
    NoDup (MR.values_of g (output first_run)).*1 ∧
    ∀ w n, (g, (w, n)) ∈ output first_run →
           0 < global_count keep_text (concat two_files) w g ∧
           n = Z.of_nat (global_count keep_text (concat two_files) w g).
Proof.
  split; [exact first_run_valid|].
  exact (job_output_true_counts keep_text (Some 2%Z) true two_files first_run
           first_run_valid).
Defined.

(** X13: under a category, no word that the job leaves out occurs more
    often there than a word that it puts out. *)
Theorem job_output_is_top
    (preprocess_text : cell → result string) (maxWords : option Z) (c : bool)
    (files : list (list row)) (ρ : run) :
  valid_run preprocess_text maxWords c files ρ →
  ∀ g w n w',
    (g, (w, n)) ∈ output ρ →
    (∀ n', (g, (w', n')) ∉ output ρ) →
    (global_count preprocess_text (concat files) w' g
     ≤ global_count preprocess_text (concat files) w g)%nat.
Proof.
  intros Hρ g w n w' Hin Hout.
  destruct (output_split _ _ _ _ _ g Hρ) as (rest & Hp & Hs).
  destruct (round1_run_counts _ _ _ _ (run_first _ _ _ _ _ Hρ)) as [_ Hcnt].
  assert (Hw : (w, n) ∈ MR.values_of g (output ρ)) by by apply elem_of_values_of.
  assert (Hn : n = Z.of_nat (global_count preprocess_text (concat files) w g)).
  { apply (Hcnt g w n), elem_of_values_of. rewrite <- Hp. apply elem_of_app. by left. }
  destruct (decide (0 < global_count preprocess_text (concat files) w' g)) as [Hpos|]; [|lia].
  set (n' := Z.of_nat (global_count preprocess_text (concat files) w' g)).
  assert (Hw' : (w', n') ∈ MR.values_of g (output ρ) ++ rest).
  { rewrite Hp. apply elem_of_values_of. by apply Hcnt. }
  apply elem_of_app in Hw' as [Hw'|Hw'].
  - exfalso. apply (Hout n').
    by apply (proj1 (elem_of_values_of g (w', n') (output ρ))) in Hw'.
  - pose proof (StronglySorted_app_1_elem_of _ _ _ _ _ Hs Hw Hw') as Hle.
    unfold count_desc in Hle. simpl in Hle. lia.
Qed.

Lemma job_output_is_top_witness :
  valid_run keep_text (Some 2%Z) true two_files first_run ∧
  ∀ g w n w',
    (g, (w, n)) ∈ output first_run →
    (∀ n', (g, (w', n')) ∉ output first_run) →
    (global_count keep_text (concat two_files) w' g
     ≤ global_count keep_text (concat two_files) w g)%nat.
Proof.
  split; [exact first_run_valid|].
  exact (job_output_is_top keep_text (Some 2%Z) true two_files first_run
           first_run_valid).
Defined.

(** X14: a category comes out of the job only if some row puts a word under
    it; with no limit, or a limit of at least 1, every such category comes
    out. *)
Theorem job_output_categories
    (preprocess_text : cell → result string) (maxWords : option Z) (c : bool)
    (files : list (list row)) (ρ : run) :
  valid_run preprocess_text maxWords c files ρ →
  ∀ g,
    (g ∈ (output ρ).*1 → 0 < category_count preprocess_text (concat files) g) ∧
    (maxWords = None ∨ (∃ k, maxWords = Some k ∧ 1 ≤ k)%Z →
     0 < category_count preprocess_text (concat files) g →
     g ∈ (output ρ).*1).
Proof.
  intros Hρ g.
  destruct (round1_run_counts _ _ _ _ (run_first _ _ _ _ _ Hρ)) as [_ Hcnt].
  split.
  - intros Hg. apply list_elem_of_fmap in Hg as ([g' [w n]] & -> & Hin).
    apply category_count_positive. exists w. simpl.
    destruct (output_split _ _ _ _ _ g' Hρ) as (rest & Hp & _).
    apply (Hcnt g' w n), elem_of_values_of. rewrite <- Hp.
    apply elem_of_app. left. by apply elem_of_values_of.
  - intros Hk Hpos. apply category_count_positive in Hpos as [w Hw].
    destruct (output_of_category _ _ _ _ _ g Hρ) as (vs & Hp & Hout).
    assert (Hin : (w, Z.of_nat (global_count preprocess_text (concat files) w g))
                  ∈ Py.sorted vs snd true).
    { rewrite PyFacts.sorted_perm, Hp. apply elem_of_values_of. by apply Hcnt. }
    assert (Hne : ranking maxWords vs ≠ []).
    { unfold ranking. destruct (Py.sorted vs snd true) as [|x l];
        [by apply elem_of_nil in Hin|].
      destruct Hk as [->|(k & -> & Hk)]; [done|].
      rewrite PyFacts.slice_to_nonneg by lia.
      destruct (Z.to_nat k) eqn:Hz; [lia|done]. }
    rewrite <- Hout in Hne.
    destruct (MR.values_of g (output ρ)) as [|x l] eqn:Hv; [done|].
    assert (Hx : x ∈ MR.values_of g (output ρ)) by (rewrite Hv; by left).
    apply (proj1 (elem_of_values_of g x (output ρ))) in Hx.
    apply list_elem_of_fmap. by exists (g, x).
Qed.

Lemma job_output_categories_witness :
  valid_run keep_text (Some 2%Z) true two_files first_run ∧
  ∀ g,
    (g ∈ (output first_run).*1 → 0 < category_count keep_text (concat two_files) g) ∧
    (Some 2%Z = None ∨ (∃ k, Some 2%Z = Some k ∧ 1 ≤ k)%Z →
     0 < category_count keep_text (concat two_files) g →
     g ∈ (output first_run).*1).
Proof.
  split; [exact first_run_valid|].
  exact (job_output_categories keep_text (Some 2%Z) true two_files first_run
           first_run_valid).
Defined.

(** X15: the selector puts out only pairs that round 1 has put out, each at
    most as often; without a limit the output of the job is the output of
    round 1 in another order. *)
Theorem selector_keeps_pairs
    (preprocess_text : cell → result string) (maxWords : option Z) (c : bool)
    (files : list (list row)) (ρ : run) :
  valid_run preprocess_text maxWords c files ρ →
  output ρ ⊆+ round1 ρ ∧
  (maxWords = None → output ρ ≡ₚ round1 ρ).
Proof.
  intros [_ Hg Ho]. rewrite Ho, <- (MR.shuffle_perm _ _ Hg). split.
  - apply selector_stage_submseteq.
  - intros ->. apply selector_stage_no_limit.
Qed.

Lemma selector_keeps_pairs_witness :
  valid_run keep_text (Some 2%Z) true two_files first_run ∧
  output first_run ⊆+ round1 first_run ∧
  (Some 2%Z = None → output first_run ≡ₚ round1 first_run).
Proof.
  split; [exact first_run_valid|].
  exact (selector_keeps_pairs keep_text (Some 2%Z) true two_files first_run
           first_run_valid).
Defined.

(** ** The job and the split of the rows into files *)

Section Partition.
Variable preprocess_text : cell → result string.
Variable maxWords : option Z.

Lemma mapper_csv_accepts (df : list row) :
  Forall (λ r, ∃ es, mapper_row preprocess_text r = Ok es) df →
  ∃ es, mapper_csv preprocess_text df = Ok es.
Proof.
  intros Hall. unfold mapper_csv.
  assert (Ht : ∃ per_row, traverse (mapper_row preprocess_text) df = Ok per_row).
  { induction Hall as [|r df [es Hr] _ [per_row IH]]; simpl; [by eexists|].
    rewrite Hr, IH. simpl. by eexists. }
  destruct Ht as [per_row ->]. simpl. by eexists.
Qed.

Lemma mapper_csv_accepted (df : list row) (es : list emission) :
  mapper_csv preprocess_text df = Ok es →
  Forall (λ r, ∃ es', mapper_row preprocess_text r = Ok es') df.
Proof.
  unfold mapper_csv.
  destruct (traverse (mapper_row preprocess_text) df) as [per_row|e] eqn:Ht; [|done].
  intros _. apply traverse_ok in Ht.
  induction Ht as [|r es' df per_row Hr _ IH]; constructor; eauto.
Qed.

Lemma mapped_accepted (files : list (list row)) (ms : list (list emission)) :
  traverse (mapper_csv preprocess_text) files = Ok ms →
  Forall (λ r, ∃ es, mapper_row preprocess_text r = Ok es) (concat files).
Proof.
  intros Ht. apply traverse_ok in Ht.
  induction Ht as [|df es files ms Hdf _ IH]; [constructor|].
  simpl. apply Forall_app. split; [by eapply mapper_csv_accepted|done].
Qed.

Lemma mapped_accepts (files : list (list row)) :
  Forall (λ r, ∃ es, mapper_row preprocess_text r = Ok es) (concat files) →
  ∃ ms, traverse (mapper_csv preprocess_text) files = Ok ms.
Proof.
  induction files as [|df files IH]; simpl; [by eexists|].
  intros [Hdf Hfiles]%Forall_app.
  destruct (mapper_csv_accepts df Hdf) as [es ->].
  destruct (IH Hfiles) as [ms ->]. simpl. by eexists.
Qed.

Lemma valid_run_repartition (c c' : bool) (files files' : list (list row)) (ρ : run) :
  concat files ≡ₚ concat files' →
  valid_run preprocess_text maxWords c files ρ →
  ∃ ρ', valid_run preprocess_text maxWords c' files' ρ' ∧ output ρ' = output ρ.
Proof.
  intros Hp [H1 Hg Ho].
  destruct (round1_run_elim _ _ _ _ H1) as (Hnd & Hks & Hr).
  pose proof (mapped_inv preprocess_text files (mapped ρ) (run_mapped _ _ _ _ H1)) as HE.
  destruct (mapped_accepts files') as [ms' Hms'].
  { rewrite <- Hp. by eapply mapped_accepted, run_mapped. }
  pose proof (mapped_inv preprocess_text files' ms' Hms') as HE'.
  assert (Hperm : concat ms' ≡ₚ concat (mapped ρ)).
  { by rewrite HE, HE', Hp. }
  destruct (round1_run_intro preprocess_text c' files' ms' (groups1 ρ).*1 Hms' Hnd)
    with (gs2 := groups2 ρ) (out := output ρ) as (ρ' & Hρ' & _ & Hr' & Hg' & Ho').
  { intros k. by rewrite Hks, Hperm. }
  assert (Hsame : round1 ρ' = round1 ρ).
  { rewrite Hr, Hr'. apply round1_of_ext. intros k. by rewrite Hperm. }
  exists ρ'. split; [|done]. split; [done|..].
  - by rewrite Hsame, Hg'.
  - by rewrite Ho', Hg'.
Qed.

End Partition.

(** X16: what the job can put out does not depend on how the rows are split
    into input files, on their order, or on the use of the combiner. *)
Theorem job_partition_invariant
    (preprocess_text : cell → result string) (maxWords : option Z) (c c' : bool)
    (files files' : list (list row)) :
  concat files ≡ₚ concat files' →
  ∀ out, job preprocess_text maxWords c files out
         ↔ job preprocess_text maxWords c' files' out.
Proof.
  intros Hp out. split; intros (ρ & Hρ & <-).
  - destruct (valid_run_repartition preprocess_text maxWords c c' files files' ρ Hp Hρ)
      as (ρ' & Hρ' & Ho). by exists ρ'.
  - symmetry in Hp.
    destruct (valid_run_repartition preprocess_text maxWords c' c files' files ρ Hp Hρ)
      as (ρ' & Hρ' & Ho). by exists ρ'.
Qed.

Lemma job_partition_invariant_witness :
  concat two_files ≡ₚ concat [two_movies] ∧
  ∀ out, job keep_text (Some 2%Z) true two_files out
         ↔ job keep_text (Some 2%Z) false [two_movies] out.
Proof.
  split; [reflexivity|].
  apply (job_partition_invariant keep_text (Some 2%Z) true false two_files [two_movies]).
  reflexivity.
Defined.
